(** * gs-quant: the backtest scheduler and the pricing-context protocol

    A shallow embedding of

    - [gs_quant/backtests/predefined_asset_engine.py]: [AddTradeActionImpl],
      [PredefinedAssetEngineActionFactory] and [PredefinedAssetEngine]
      (handler dispatch, [supports_strategy], [_timer], [run_backtest], [_run]);
    - [gs_quant/markets/historical.py]: [HistoricalPricingContext.__init__]
      and [HistoricalPricingContext.calc];
    - the pricing-context stack ([gs_quant/markets/core.py]), whose code is
      not among the sources and is modelled from the specification and from
      [gs_quant/test/markets/test_pricing_context.py];
    - [gs_quant/markets/portfolio.py]: the tree of priceables of a
      [Portfolio], its name index, [paths], [all_paths], [all_portfolios],
      [__contains__], [__add__] and [__hash__];
    - [gs_quant/base.py]: [DictBase] and the constructor that [fix_args]
      installs.

    Python values are modelled as follows.  A [dt.date] is its proleptic
    Gregorian ordinal ([date.toordinal()], an integer), a [dt.time] is the
    number of microseconds since midnight, a [dt.timedelta] is a signed
    number of microseconds, and a [dt.datetime] is the pair of a date and a
    time compared lexicographically, as Python compares them.  Exceptions
    are explicit: a call that can raise returns a [result]. *)

From stdpp Require Import gmap strings list fin_maps.
From Stdlib Require Import ZArith Lia Sorted.

Local Open Scope Z_scope.

(** ** Exceptions and results *)

Inductive Exception : Type :=
  | RuntimeError (msg : string)
  | TypeError (msg : string)
  | ValueError (msg : string)
  | OverflowError (msg : string)
  | AttributeError (msg : string).

Inductive result (A : Type) : Type :=
  | Return (a : A)
  | Raise (e : Exception).

Arguments Return {A} a.
Arguments Raise {A} e.

#[global] Instance result_ret : MRet result := λ A a, Return a.

#[global] Instance result_bind : MBind result := λ A B k r,
  match r with
  | Return a => k a
  | Raise e => Raise e
  end.

Definition is_RuntimeError (e : Exception) : bool :=
  match e with RuntimeError _ => true | _ => false end.

Definition is_ValueError (e : Exception) : bool :=
  match e with ValueError _ => true | _ => false end.

(** ** Dates, times of day and timestamps *)

Module Datetime.

Abbreviation date := Z (only parsing).
Abbreviation time := Z (only parsing).
Abbreviation timedelta := Z (only parsing).

(** [dt.time(hour, minute, second, microsecond)] *)
Definition mk_time (hour minute second microsecond : Z) : time :=
  ((hour * 60 + minute) * 60 + second) * 1000000 + microsecond.

Definition us_per_day : Z := 86400000000.

(** [date.min.toordinal()] and [date.max.toordinal()] *)
Definition MINORD : Z := 1.
Definition MAXORD : Z := 3652059.

Record datetime : Type := combine { dt_date : date; dt_time : time }.

#[global] Instance datetime_eq_dec : EqDecision datetime.
Proof. solve_decision. Defined.

(** [a < b] on datetimes: by date, then by time of day. *)
Definition datetime_lt (a b : datetime) : Prop :=
  dt_date a < dt_date b ∨ (dt_date a = dt_date b ∧ dt_time a < dt_time b).

#[global] Instance datetime_lt_dec a b : Decision (datetime_lt a b).
Proof. unfold datetime_lt. apply _. Defined.

(** [state + timedelta]; Python raises [OverflowError] when the date leaves
    [date.min .. date.max]. *)
Definition datetime_add (state : datetime) (td : timedelta) : result datetime :=
  let total := dt_date state * us_per_day + dt_time state + td in
  let d := total `div` us_per_day in
  if bool_decide (MINORD ≤ d ≤ MAXORD)
  then Return (combine d (total `mod` us_per_day))
  else Raise (OverflowError "date value out of range").

(** [timedelta(days=n)] *)
Definition days (n : Z) : timedelta := n * us_per_day.

End Datetime.

Import Datetime.

(** ** Python containers *)

(** [list(dict.fromkeys(l))]: the keys of [l] in order of first insertion. *)
Definition fromkeys_step {A : Type} `{EqDecision A} (keys : list A) (k : A) : list A :=
  if decide (k ∈ keys) then keys else keys ++ [k].

Definition dict_fromkeys {A : Type} `{EqDecision A} (l : list A) : list A :=
  foldl fromkeys_step [] l.

(** [functools.reduce(lambda x, y: x + y, ls)] without an initial value:
    a [TypeError] on the empty sequence. *)
Definition reduce_concat {A : Type} (ls : list (list A)) : result (list A) :=
  match ls with
  | [] => Raise (TypeError "reduce() of empty iterable with no initial value")
  | l :: ls => Return (foldl (λ x y, x ++ y) l ls)
  end.

(** ** Python classes

    A class is known by its name and the names of its proper ancestors (its
    method resolution order without the class itself).  [type(x)] is a
    [PyClass]; dictionaries keyed by types are keyed by [PyClass]. *)

Record PyClass : Type := { cls_name : string; cls_bases : list string }.

#[global] Instance PyClass_eq_dec : EqDecision PyClass.
Proof. solve_decision. Defined.

#[global] Instance PyClass_countable : Countable PyClass.
Proof.
  refine (inj_countable' (λ c, (cls_name c, cls_bases c))
                         (λ p, {| cls_name := p.1; cls_bases := p.2 |}) _).
  by intros [].
Defined.

(** [issubclass(c, d)] with [c is not d]. *)
Definition strict_subclass (c d : PyClass) : Prop :=
  c ≠ d ∧ cls_name d ∈ cls_bases c.

(** * The backtest engine ([gs_quant/backtests/predefined_asset_engine.py]) *)

Module Backtests.

(** ** Data model *)

Record Priceable : Type := {
  priceable_name : string;
  instrument_quantity : Z
}.

(** The value of [AddTradeAction.trade_duration].  The handler reads it
    through [isinstance(.., dt.timedelta)], so the other values the
    attribute may hold are kept apart: [None], a tenor string such as
    ["5b"], or a date. *)
Inductive PyDuration : Type :=
  | DurNone
  | DurTimedelta (td : timedelta)
  | DurTenor (tenor : string)
  | DurDate (d : date).

Record Action : Type := {
  action_type : PyClass;
  _name : string;
  priceables : list Priceable;
  trade_duration : PyDuration
}.

Record OrderAtMarket : Type := {
  instrument : Priceable;
  quantity : Z;
  generation_time : datetime;
  execution_datetime : datetime;
  source : string
}.

Record TimeWindow : Type := { window_start : time; window_end : time }.

Record ValuationMethod : Type := { window : option TimeWindow }.

Section Engine.

(** [W] is the state of the engine's collaborators (data handler, execution
    engine and backtest accumulator), [Fill] the payload of a fill event and
    [Info] the side-channel data a trigger attaches for a handler. *)
Context {W Fill Info : Type}.

Inductive Event : Type :=
  | MarketEvent
  | ValuationEvent
  | OrderEvent (order : OrderAtMarket)
  | FillEvent (fill : Fill).

(** [event.type] *)
Definition event_type (event : Event) : string :=
  match event with
  | MarketEvent => "Market"
  | ValuationEvent => "Valuation"
  | OrderEvent _ => "Order"
  | FillEvent _ => "Fill"
  end.

Record TriggerInfo : Type := {
  triggered : bool;
  info_dict : option (gmap PyClass Info)
}.

Record Trigger : Type := {
  get_trigger_times : list time;
  actions : list Action;
  has_triggered : datetime → W → TriggerInfo
}.

Record Strategy : Type := { triggers : list Trigger }.

(** An [ActionHandler]: the action it was built for and its [apply_action]
    method, which reads the backtest and may raise. *)
Record ActionHandler : Type := {
  handler_action : Action;
  apply_action : datetime → W → option Info → result (list OrderAtMarket)
}.

(** The collaborators of the engine, whose code is outside the engine:
    [gs_quant.datetime.date_range], the data handler, the execution engine
    and the backtest accumulator.  Their methods are taken to return; the
    exceptions of a run are those of handler resolution and of the
    handlers. *)
Record Collaborators : Type := {
  date_range : date → date → list string → list date;
  init_backtest : date → W → W;
  data_handler_update : datetime → W → W;
  execution_engine_ping : datetime → W → list Fill * W;
  execution_engine_submit_order : Event → W → W;
  backtest_record_orders : list OrderAtMarket → W → W;
  backtest_update_fill : Event → W → W;
  backtest_mark_to_market : datetime → ValuationMethod → W → W
}.

Record PredefinedAssetEngine : Type := {
  action_impl_map : gmap PyClass (Action → ActionHandler);
  calendars : list string;
  valuation_method : ValuationMethod;
  collaborators : Collaborators
}.

(** ** [AddTradeActionImpl] *)

(** One iteration of the loop of [generate_orders]: the opening order, and
    the closing order when [trade_duration] is a [dt.timedelta]. *)
Definition orders_for (action : Action) (state : datetime) (pricable : Priceable)
    : result (list OrderAtMarket) :=
  let opening := {| instrument := pricable;
                    quantity := instrument_quantity pricable;
                    generation_time := state;
                    execution_datetime := state;
                    source := _name action |} in
  match trade_duration action with
  | DurTimedelta td =>
      execution ← datetime_add state td;
      mret [opening;
            {| instrument := pricable;
               quantity := instrument_quantity pricable * -1;
               generation_time := state;
               execution_datetime := execution;
               source := _name action |}]
  | _ => mret [opening]
  end.

Fixpoint generate_orders_loop (action : Action) (state : datetime)
    (ps : list Priceable) (orders : list OrderAtMarket) : result (list OrderAtMarket) :=
  match ps with
  | [] => mret orders
  | pricable :: ps =>
      new ← orders_for action state pricable;
      generate_orders_loop action state ps (orders ++ new)
  end.

Definition generate_orders (action : Action) (state : datetime) (backtest : W)
    : result (list OrderAtMarket) :=
  generate_orders_loop action state (priceables action) [].

Definition AddTradeActionImpl (action : Action) : ActionHandler :=
  {| handler_action := action;
     apply_action := λ state backtest info, generate_orders action state backtest |}.

(** ** Handler dispatch *)

Definition unsupported (c : PyClass) : Exception :=
  RuntimeError ("Action <class '" +:+ cls_name c +:+ "'> not supported by engine").

Definition get_action_handler (self : PredefinedAssetEngine) (action : Action)
    : result ActionHandler :=
  match action_impl_map self !! action_type action with
  | Some impl => Return (impl action)
  | None => Raise (unsupported (action_type action))
  end.

(** The [for] loop of [supports_strategy]. *)
Fixpoint resolve_all (self : PredefinedAssetEngine) (all_actions : list Action)
    : result () :=
  match all_actions with
  | [] => mret ()
  | x :: all_actions =>
      _ ← get_action_handler self x;
      resolve_all self all_actions
  end.

(** [reduce] runs before the [try]; only a [RuntimeError] of the loop is
    caught. *)
Definition supports_strategy (self : PredefinedAssetEngine) (strategy : Strategy)
    : result bool :=
  all_actions ← reduce_concat (map actions (triggers strategy));
  match resolve_all self all_actions with
  | Return _ => Return true
  | Raise e => if is_RuntimeError e then Return false else Raise e
  end.

(** ** The timer *)

Definition _eod_valuation_time (self : PredefinedAssetEngine) : time :=
  match window (valuation_method self) with
  | Some w => window_end w
  | None => mk_time 23 0 0 0
  end.

Definition _timer (self : PredefinedAssetEngine) (strategy : Strategy)
    (start end_ : date) : list datetime :=
  let dates := date_range (collaborators self) start end_ (calendars self) in
  let times := foldl (λ times trigger, times ++ get_trigger_times trigger) []
                     (triggers strategy) in
  let times := times ++ [_eod_valuation_time self] in
  let times := dict_fromkeys times in
  foldl (λ all_times d,
           foldl (λ all_times t, all_times ++ [combine d t]) all_times times)
        [] dates.

(** ** The event loop

    The state threaded through [_run]: the collaborators' state, the deque
    [events], and two ghost logs that record, with the timestamp of the
    timer step, every event appended to the deque and every event taken
    from it.  The logs are read by the theorems only. *)

Record RunState : Type := {
  world : W;
  events : list Event;
  enqueued : list (datetime * Event);
  processed : list (datetime * Event)
}.

Definition set_world (f : W → W) (s : RunState) : RunState :=
  {| world := f (world s); events := events s;
     enqueued := enqueued s; processed := processed s |}.

(** [events.extend(new)] (and [events.append(e)] as [extend [e]]) *)
Definition extend (state : datetime) (new : list Event) (s : RunState) : RunState :=
  {| world := world s; events := events s ++ new;
     enqueued := enqueued s ++ map (pair state) new; processed := processed s |}.

(** [event = events.popleft()] on a deque whose head is [event] *)
Definition popleft (state : datetime) (event : Event) (rest : list Event)
    (s : RunState) : RunState :=
  {| world := world s; events := rest;
     enqueued := enqueued s; processed := processed s ++ [(state, event)] |}.

(** [for action in trigger.actions: ...] *)
Fixpoint for_actions (self : PredefinedAssetEngine) (state : datetime)
    (trigger_info : TriggerInfo) (acts : list Action) (s : RunState)
    : result () * RunState :=
  match acts with
  | [] => (Return (), s)
  | action :: acts =>
      let info := info_dict trigger_info ≫= (λ d, d !! action_type action) in
      match get_action_handler self action with
      | Raise e => (Raise e, s)
      | Return handler =>
          match apply_action handler state (world s) info with
          | Raise e => (Raise e, s)
          | Return orders =>
              let s := set_world (backtest_record_orders (collaborators self) orders) s in
              let s := extend state (map OrderEvent orders) s in
              for_actions self state trigger_info acts s
          end
      end
  end.

(** [for trigger in strategy.triggers: ...] *)
Fixpoint for_triggers (self : PredefinedAssetEngine) (state : datetime)
    (trigs : list Trigger) (s : RunState) : result () * RunState :=
  match trigs with
  | [] => (Return (), s)
  | trigger :: trigs =>
      let trigger_info := has_triggered trigger state (world s) in
      if triggered trigger_info then
        match for_actions self state trigger_info (actions trigger) s with
        | (Return _, s) => for_triggers self state trigs s
        | r => r
        end
      else for_triggers self state trigs s
  end.

(** The body of the [while] loop after [popleft]: dispatch on [event.type]. *)
Definition dispatch (self : PredefinedAssetEngine) (strategy : Strategy)
    (state : datetime) (event : Event) (s : RunState) : result () * RunState :=
  if String.eqb (event_type event) "Market" then
    for_triggers self state (triggers strategy) s
  else if String.eqb (event_type event) "Order" then
    (Return (), set_world (execution_engine_submit_order (collaborators self) event) s)
  else if String.eqb (event_type event) "Fill" then
    (Return (), set_world (backtest_update_fill (collaborators self) event) s)
  else if String.eqb (event_type event) "Valuation" then
    (Return (),
     set_world (backtest_mark_to_market (collaborators self) state (valuation_method self)) s)
  else (Return (), s).

(** [while events: ...].  [None] when [fuel] iterations did not empty the
    deque; [drain_terminates] shows that enough fuel always exists. *)
Fixpoint drain (fuel : nat) (self : PredefinedAssetEngine) (strategy : Strategy)
    (state : datetime) (s : RunState) : option (result () * RunState) :=
  match fuel with
  | O => None
  | S fuel =>
      match events s with
      | [] => Some (Return (), s)
      | event :: rest =>
          match dispatch self strategy state event (popleft state event rest s) with
          | (Return _, s) => drain fuel self strategy state s
          | r => Some r
          end
      end
  end.

(** The statements of the [for state in timer] body that come before the
    [while] loop. *)
Definition begin_step (self : PredefinedAssetEngine) (state : datetime)
    (s : RunState) : RunState :=
  let s := set_world (data_handler_update (collaborators self) state) s in
  let '(fills, w) := execution_engine_ping (collaborators self) state (world s) in
  let s := set_world (λ _, w) s in
  let s := extend state (map FillEvent fills) s in
  let s := extend state [MarketEvent] s in
  if bool_decide (dt_time state = _eod_valuation_time self)
  then extend state [ValuationEvent] s
  else s.

Fixpoint run_loop (fuel : nat) (self : PredefinedAssetEngine) (strategy : Strategy)
    (timer : list datetime) (s : RunState) : option (result () * RunState) :=
  match timer with
  | [] => Some (Return (), s)
  | state :: timer =>
      match drain fuel self strategy state (begin_step self state s) with
      | Some (Return _, s) => run_loop fuel self strategy timer s
      | r => r
      end
  end.

Definition _run (fuel : nat) (self : PredefinedAssetEngine) (strategy : Strategy)
    (timer : list datetime) (backtest : W) : option (result () * RunState) :=
  run_loop fuel self strategy timer
    {| world := backtest; events := []; enqueued := []; processed := [] |}.

Definition run_backtest (fuel : nat) (self : PredefinedAssetEngine)
    (strategy : Strategy) (start end_ : date) (w : W)
    : option (result () * RunState) :=
  let backtest := init_backtest (collaborators self) start w in
  let timer := _timer self strategy start end_ in
  _run fuel self strategy timer backtest.

End Engine.

Arguments Event : clear implicits.
Arguments TriggerInfo : clear implicits.
Arguments Trigger : clear implicits.
Arguments Strategy : clear implicits.
Arguments ActionHandler : clear implicits.
Arguments Collaborators : clear implicits.
Arguments PredefinedAssetEngine : clear implicits.
Arguments RunState : clear implicits.

End Backtests.

(** * Pricing contexts ([gs_quant/markets]) *)

Module Markets.

(** ** Data model *)

Inductive PricingLocation : Type := LDN | NYC | TKO | HKG.

#[global] Instance PricingLocation_eq_dec : EqDecision PricingLocation.
Proof. solve_decision. Defined.

(** [CloseMarket(date=.., location=..)]; both arguments are optional. *)
Record CloseMarket : Type := {
  market_date : option date;
  location : option PricingLocation
}.

#[global] Instance CloseMarket_eq_dec : EqDecision CloseMarket.
Proof. solve_decision. Defined.

(** The properties of a pricing context. *)
Inductive Property : Type :=
  | pricing_date
  | market
  | market_data_location
  | is_async
  | is_batch
  | use_cache
  | visible_to_gs
  | csa_term
  | request_priority
  | batch_results_timeout
  | max_concurrent.

#[global] Instance Property_eq_dec : EqDecision Property.
Proof. solve_decision. Defined.

Definition Property_index (P : Property) : nat :=
  match P with
  | pricing_date => 0 | market => 1 | market_data_location => 2
  | is_async => 3 | is_batch => 4 | use_cache => 5 | visible_to_gs => 6
  | csa_term => 7 | request_priority => 8 | batch_results_timeout => 9
  | max_concurrent => 10
  end%nat.

Definition Property_of_index (n : nat) : Property :=
  match n with
  | 0 => pricing_date | 1 => market | 2 => market_data_location
  | 3 => is_async | 4 => is_batch | 5 => use_cache | 6 => visible_to_gs
  | 7 => csa_term | 8 => request_priority | 9 => batch_results_timeout
  | _ => max_concurrent
  end%nat.

#[global] Instance Property_countable : Countable Property.
Proof.
  refine (inj_countable' Property_index Property_of_index _). by intros [].
Defined.

Definition all_properties : list Property :=
  [pricing_date; market; market_data_location; is_async; is_batch; use_cache;
   visible_to_gs; csa_term; request_priority; batch_results_timeout; max_concurrent].

(** The value of a property that is set; an unset property ([None] in
    Python) has no entry. *)
Inductive Value : Type :=
  | VDate (d : date)
  | VMarket (m : CloseMarket)
  | VLocation (l : PricingLocation)
  | VBool (b : bool)
  | VStr (s : string)
  | VInt (n : Z).

#[global] Instance Value_eq_dec : EqDecision Value.
Proof. solve_decision. Defined.

(** A context object: the current values of its properties, and, while it
    is entered, the values it had on entry. *)
Record Context : Type := {
  attrs : gmap Property Value;
  attrs_on_entry : option (gmap Property Value)
}.

(** Keyword arguments: [k=v] is left out when [v] is [None]. *)
Definition kwarg (k : Property) (v : option Value) (kwargs : gmap Property Value)
    : gmap Property Value :=
  match v with
  | Some v => <[k := v]> kwargs
  | None => kwargs
  end.

(** ** [PricingContext] *)

Module PricingContext.

(** Modelled from the spec: the number of days after today up to which the
    constructor of [PricingContext] accepts a pricing date
    ([gs_quant/markets/core.py], which fixes it, is not among the sources).
    Section 4.1 refuses a pricing date in the future.  The tests bound the
    limit: [test_weekend_dates] constructs and enters the context for the
    date two days after today, and [test_pricing_dates] has the date ten
    days after today refused. *)
Record FutureTolerance : Type := {
  tolerated_days : Z;
  tolerated_days_bounds : 2 ≤ tolerated_days < 10
}.

Section WithToday.

(** [dt.date.today()] *)
Variable today : date.

Variable future_tolerance : FutureTolerance.

(** Modelled from the spec: the constructor of [PricingContext]
    ([gs_quant/markets/core.py] is not among the sources).  Section 4.1:
    conflicting explicit [market.location] and [market_data_location] is a
    construction error, and so is a [pricing_date] in the future, which
    the tests make a date later than today by more than the tolerated
    days.  [test_pricing_dates]: such a [pricing_date] is accepted when a
    market is supplied, and the error reads "pricing_date in the future".
    The constructor has no argument for a forward roll, which is a
    [RollFwd] scenario around the calculation ([test_pricing_context]).  A
    context that is constructed holds exactly the properties it was given
    ([test_creation]). *)
Definition __init__ (kwargs : gmap Property Value) : result Context :=
  match kwargs !! market, kwargs !! market_data_location with
  | Some (VMarket {| location := Some l |}), Some (VLocation l') =>
      if decide (l = l') then mret () else
        Raise (ValueError "market.location and market_data_location cannot be different")
  | _, _ => mret ()
  end ≫= λ _,
  match kwargs !! pricing_date, kwargs !! market with
  | Some (VDate d), None =>
      if bool_decide (today + tolerated_days future_tolerance < d)
      then Raise (ValueError "pricing_date in the future")
      else mret ()
  | _, _ => mret ()
  end ≫= λ _,
  mret {| attrs := kwargs; attrs_on_entry := None |}.

(** Modelled from the spec: the hard-coded defaults of section 4.1 (today's
    date, location LDN, [is_async], [is_batch] and [use_cache] false, a
    fixed [max_concurrent], 1000 in [test_inheritance]); the other
    properties have none. *)
Definition hard_coded_default (P : Property) : option Value :=
  match P with
  | pricing_date => Some (VDate today)
  | market_data_location => Some (VLocation LDN)
  | is_async | is_batch | use_cache => Some (VBool false)
  | max_concurrent => Some (VInt 1000)
  | _ => None
  end.

(** Modelled from the spec: the value an entering context takes for a
    property it does not set, from the frames that enclose it (section 4.1,
    property read): the nearest enclosing frame that has the property, else
    the default. *)
Fixpoint inherited (enclosing : list Context) (P : Property) : option Value :=
  match enclosing with
  | [] => hard_coded_default P
  | frame :: enclosing =>
      match attrs frame !! P with
      | Some v => Some v
      | None => inherited enclosing P
      end
  end.

(** The location of the market a context was given
    ([test_market_props]: "pc gets market_data_location from its market"). *)
Definition own_market_location (c : Context) : option Value :=
  match attrs c !! market with
  | Some (VMarket m) => VLocation <$> location m
  | _ => None
  end.

(** Modelled from the spec: the value of a property inside the scope of a
    context.  A property the context sets keeps its value.  The market is
    not inherited ([test_market_props]): a context without one builds a
    close market from its own pricing date and location. *)
Definition effective_own (enclosing : list Context) (c : Context) (P : Property)
    : option Value :=
  match attrs c !! P with
  | Some v => Some v
  | None =>
      match P with
      | market_data_location =>
          match own_market_location c with
          | Some v => Some v
          | None => inherited enclosing P
          end
      | _ => inherited enclosing P
      end
  end.

Definition effective (enclosing : list Context) (c : Context) (P : Property)
    : option Value :=
  match P with
  | market =>
      match attrs c !! market with
      | Some v => Some v
      | None =>
          match effective_own enclosing c pricing_date,
                effective_own enclosing c market_data_location with
          | Some (VDate d), Some (VLocation l) =>
              Some (VMarket {| market_date := Some d; location := Some l |})
          | _, _ => None
          end
      end
  | _ => effective_own enclosing c P
  end.

Definition identity_map : gmap Property Property :=
  list_to_map ((λ P, (P, P)) <$> all_properties).

(** Modelled from the spec: entering pushes the context on the stack
    (innermost frame first); the frame caches the values the context had
    and overrides every property with its effective value. *)
Definition enter (stack : list Context) (c : Context) : list Context :=
  {| attrs := omap (effective stack c) identity_map;
     attrs_on_entry := Some (attrs c) |} :: stack.

(** Modelled from the spec: leaving pops exactly one frame and gives the
    context back the values cached on entry. *)
Definition restore (frame : Context) : Context :=
  {| attrs := default (attrs frame) (attrs_on_entry frame);
     attrs_on_entry := None |}.

Definition exit (stack : list Context) : option Context * list Context :=
  (restore <$> head stack, tail stack).

(** [with c: body]: the body runs with [c] entered, and the exit runs
    however the body ends; [X] is what the body produces, a value or an
    exception.  The result is that outcome, the context as it is after the
    block, and the stack after the block. *)
Definition with_context {X : Type} (stack : list Context) (c : Context)
    (body : list Context → X) : X * option Context * list Context :=
  let entered := enter stack c in
  let outcome := body entered in
  let '(c', stack') := exit entered in
  (outcome, c', stack').

(** Modelled from the spec: at calculation time the active frames must
    agree on [market_data_location] (section 4.1, failure semantics);
    otherwise the calculation is handed to the valuation backend with the
    innermost frame. *)
Definition calc {X : Type} (backend : Context → result X) (stack : list Context)
    : result X :=
  match stack with
  | [] => Raise (RuntimeError "no active pricing context")
  | current :: enclosing =>
      if bool_decide (Forall (λ frame, attrs frame !! market_data_location
                                       = attrs current !! market_data_location)
                             enclosing)
      then backend current
      else Raise (ValueError "market_data_location mismatch between nested contexts")
  end.

End WithToday.

End PricingContext.

(** ** [HistoricalPricingContext] ([gs_quant/markets/historical.py]) *)

(** [start] and [end] are an [int] or a [dt.date]. *)
Inductive DateOrInt : Type :=
  | ADate (d : date)
  | AnInt (n : Z).

(** The object: the part [PricingContext.__init__] initialises and the
    attribute [__date_range], unset until [__init__] assigns it. *)
Record HistoricalPricingContext : Type := {
  context : option Context;
  __date_range : option (list date)
}.

Record HistoricalPricingFuture (Future : Type) : Type := { futures : list Future }.

Arguments futures {Future} _.

Module HistoricalPricingContext.

Section WithCollaborators.

(** [dt.date.today()], the tolerance of the constructor of
    [PricingContext], [gs_quant.datetime.date.date_range] and
    [gs_quant.markets.markets.close_market_date]. *)
Variable today : date.
Variable future_tolerance : PricingContext.FutureTolerance.
Variable date_range : DateOrInt → DateOrInt → list string → list date.
Variable close_market_date : option PricingLocation → date → date.

(** [priceable.calc(risk_measure)] under the stack of active contexts: it
    returns a future and changes the state [B] of the valuation backend. *)
Context {Future B RiskMeasure : Type}.
Variable priceable_calc : RiskMeasure → list Context → B → Future * B.

Definition __init__ (start end_ : option DateOrInt) (calendars : list string)
    (dates : option (list date))
    (is_async is_batch use_cache visible_to_gs : bool)
    (csa_term : option string) (market_data_location : option PricingLocation)
    (batch_results_timeout : option Z)
    : HistoricalPricingContext * option Exception :=
  let kwargs :=
    kwarg Markets.is_async (Some (VBool is_async))
      (kwarg Markets.is_batch (Some (VBool is_batch))
         (kwarg Markets.use_cache (Some (VBool use_cache))
            (kwarg Markets.visible_to_gs (Some (VBool visible_to_gs))
               (kwarg Markets.csa_term (VStr <$> csa_term)
                  (kwarg Markets.market_data_location (VLocation <$> market_data_location)
                     (kwarg Markets.batch_results_timeout (VInt <$> batch_results_timeout)
                        ∅)))))) in
  match PricingContext.__init__ today future_tolerance kwargs with
  | Raise e => ({| context := None; __date_range := None |}, Some e)
  | Return base =>
      let self := {| context := Some base; __date_range := None |} in
      match start with
      | Some start =>
          match dates with
          | Some _ => (self, Some (ValueError "Must supply start or dates, not both"))
          | None =>
              let end_ := match end_ with Some e => e | None => ADate today end in
              ({| context := Some base;
                  __date_range := Some (date_range start end_ calendars) |}, None)
          end
      | None =>
          match dates with
          | Some dates => ({| context := Some base; __date_range := Some dates |}, None)
          | None => (self, Some (ValueError "Must supply start or dates"))
          end
      end
  end.

(** The context [calc] opens for [date]: the keyword arguments of the
    [PricingContext(..)] call, read from the properties [self] has. *)
Definition dated_kwargs (self : Context) (m : CloseMarket) (date : date)
    : gmap Property Value :=
  kwarg pricing_date (Some (VDate date))
    (kwarg market
       (Some (VMarket {| market_date := Some (close_market_date (location m) date);
                         location := location m |}))
       (kwarg is_async (Some (VBool true))
          (kwarg csa_term (attrs self !! csa_term)
             (kwarg use_cache (attrs self !! use_cache)
                (kwarg visible_to_gs (attrs self !! visible_to_gs) ∅))))).

(** The [for date in self.__date_range] loop of [calc]. *)
Fixpoint calc_loop (self : Context) (risk_measure : RiskMeasure)
    (dates : list date) (stack : list Context) (futures : list Future) (b : B)
    : result (list Future) * list Context * B :=
  match dates with
  | [] => (Return futures, stack, b)
  | date :: dates =>
      match attrs self !! market with
      | Some (VMarket m) =>
          match PricingContext.__init__ today future_tolerance (dated_kwargs self m date) with
          | Raise e => (Raise e, stack, b)
          | Return dated =>
              let '((future, b), _, stack) :=
                PricingContext.with_context today stack dated
                  (λ entered, priceable_calc risk_measure entered b) in
              calc_loop self risk_measure dates stack (futures ++ [future]) b
          end
      | _ =>
          (Raise (AttributeError "'NoneType' object has no attribute 'location'"),
           stack, b)
      end
  end.

Definition calc (self : HistoricalPricingContext) (risk_measure : RiskMeasure)
    (stack : list Context) (b : B)
    : result (HistoricalPricingFuture Future) * list Context * B :=
  match context self, __date_range self with
  | Some base, Some dates =>
      let '(r, stack, b) := calc_loop base risk_measure dates stack [] b in
      (futures ← r; mret {| futures := futures |}, stack, b)
  | _, _ =>
      (Raise (AttributeError "object has no attribute '__date_range'"), stack, b)
  end.

End WithCollaborators.

End HistoricalPricingContext.

End Markets.

(** * Portfolios ([gs_quant/markets/portfolio.py]) *)

Module Portfolios.

(** ** Data model

    A priceable is an instrument or a portfolio; a portfolio holds its
    name, its id and the tuple [__priceables].  [I] is the data of an
    instrument.  The dictionary [__priceables_by_name] that the setter of
    [priceables] fills is a function of [__priceables], as the setter is
    the only place that writes it: the model is of a portfolio whose
    priceables are not renamed or extended after they were put into it. *)

Section Model.

Context {I : Type}.

#[warnings="-register-all"]
Inductive PriceableImpl : Type :=
  | Instrument (name : option string) (data : I)
  | Portfolio (name : option string) (id : option string)
              (priceables : list PriceableImpl).

(** [p.name] *)
Definition name (p : PriceableImpl) : option string :=
  match p with
  | Instrument name _ => name
  | Portfolio name _ _ => name
  end.

(** [self.__priceables]; an instrument has none. *)
Definition priceables (p : PriceableImpl) : list PriceableImpl :=
  match p with
  | Instrument _ _ => []
  | Portfolio _ _ priceables => priceables
  end.

(** [isinstance(p, Portfolio)] *)
Definition is_portfolio (p : PriceableImpl) : bool :=
  match p with
  | Instrument _ _ => false
  | Portfolio _ _ _ => true
  end.

(** [len(self)] *)
Definition __len__ (self : PriceableImpl) : nat := length (priceables self).

(** [bool(p)]: a portfolio is true when it is not empty ([__len__]), an
    instrument always. *)
Definition truthy (p : PriceableImpl) : bool :=
  match p with
  | Instrument _ _ => true
  | Portfolio _ _ priceables => negb (Nat.eqb (length priceables) 0)
  end.

(** [bool(p.name)]: the name is a non-empty string. *)
Definition named (p : PriceableImpl) : option string :=
  match name p with
  | Some n => if String.eqb n "" then None else Some n
  | None => None
  end.

(** The loop of the setter of [priceables], for the dictionary
    [__priceables_by_name]:
    [if i and i.name: by_name.setdefault(i.name, []).append(idx)]. *)
Fixpoint index_names (idx : nat) (ps : list PriceableImpl)
    (by_name : gmap string (list nat)) : gmap string (list nat) :=
  match ps with
  | [] => by_name
  | i :: ps =>
      index_names (S idx) ps
        (match (if truthy i then named i else None) with
         | Some n => <[n := default [] (by_name !! n) ++ [idx]]> by_name
         | None => by_name
         end)
  end.

Definition __priceables_by_name (self : PriceableImpl) : gmap string (list nat) :=
  index_names 0 (priceables self) ∅.

(** The argument [priceables] of the constructor: one priceable, an
    iterable of priceables, or a dictionary from names to priceables, given
    by the list of its items. *)
Inductive PriceablesArg : Type :=
  | One (priceable : PriceableImpl)
  | Many (priceables : list PriceableImpl)
  | Dict (items : list (string * PriceableImpl)).

(** [priceable.name = name], which the classes of the priceables define;
    the constructor applies it to the priceables that it is given. *)
Variable set_name : PriceableImpl → string → PriceableImpl.

(** The loop [for name, priceable in priceables.items()] of the
    constructor; [name] is the variable of that name, which is also the
    parameter. *)
Fixpoint init_loop (items : list (string * PriceableImpl)) (name : option string)
    (priceables_list : list PriceableImpl) : option string * list PriceableImpl :=
  match items with
  | [] => (name, priceables_list)
  | (name', priceable) :: items =>
      init_loop items (Some name') (priceables_list ++ [set_name priceable name'])
  end.

(** [Portfolio(priceables, name)] *)
Definition __init__ (priceables : PriceablesArg) (name : option string) : PriceableImpl :=
  match priceables with
  | Dict items =>
      let '(name, priceables_list) := init_loop items name [] in
      Portfolio name None priceables_list
  | One priceable => Portfolio name None [priceable]
  | Many priceables => Portfolio name None priceables
  end.

(** [self + other]; the sum is [Portfolio(priceables)] of a tuple. *)
Definition __add__ (self other : PriceableImpl) : result PriceableImpl :=
  if is_portfolio other
  then Return (Portfolio None None (priceables self ++ priceables other))
  else Raise (ValueError "Can only add instances of Portfolio").

(** [self.portfolios] *)
Definition portfolios (self : PriceableImpl) : list PriceableImpl :=
  filter (λ i, is_portfolio i = true) (priceables self).

(** A [PortfolioPath] ([gs_quant/risk/results.py], which is not among the
    sources) is taken as the tuple of indices that leads from a portfolio
    to a priceable below it: [PortfolioPath(idx)] has the one index [idx]
    and [+] joins two paths. *)
Definition PortfolioPath : Type := list nat.

(** The [for idx, priceable in enumerate(portfolio.__priceables)] loop of
    [all_paths]; the top of [stack] is its head. *)
Fixpoint visit (parent : option PortfolioPath) (idx : nat) (ps : list PriceableImpl)
    (stack : list (option PortfolioPath * PriceableImpl)) (paths : list PortfolioPath)
    : list (option PortfolioPath * PriceableImpl) * list PortfolioPath :=
  match ps with
  | [] => (stack, paths)
  | priceable :: ps =>
      let path := match parent with
                  | Some parent => parent ++ [idx]
                  | None => [idx]
                  end in
      if is_portfolio priceable
      then visit parent (S idx) ps ((Some path, priceable) :: stack) paths
      else visit parent (S idx) ps stack (paths ++ [path])
  end.

(** The [while stack] loop of [all_paths]. *)
Fixpoint all_paths_loop (fuel : nat)
    (stack : list (option PortfolioPath * PriceableImpl)) (paths : list PortfolioPath)
    : option (list PortfolioPath) :=
  match fuel with
  | O => None
  | S fuel =>
      match stack with
      | [] => Some paths
      | (parent, portfolio) :: stack =>
          let '(stack, paths) := visit parent 0 (priceables portfolio) stack paths in
          all_paths_loop fuel stack paths
      end
  end.

Definition all_paths (fuel : nat) (self : PriceableImpl) : option (list PortfolioPath) :=
  all_paths_loop fuel [(None, self)] [].

(** What [path(self) != path(other)] does for a path; the call of a
    [PortfolioPath] is not among the sources. *)
Inductive Compared : Type :=
  | Differ
  | Agree
  | RaisesIndexError
  | RaisesOther (e : Exception).

Variable compare : PortfolioPath → PriceableImpl → PriceableImpl → Compared.

(** The loop [for path in self.all_paths] of [__eq__]. *)
Fixpoint eq_loop (self other : PriceableImpl) (paths : list PortfolioPath) : result bool :=
  match paths with
  | [] => Return true
  | path :: paths =>
      match compare path self other with
      | Differ => Return false
      | RaisesIndexError => Return false
      | RaisesOther e => Raise e
      | Agree => eq_loop self other paths
      end
  end.

(** [self == other] *)
Definition __eq__ (fuel : nat) (self other : PriceableImpl) : option (result bool) :=
  if is_portfolio other
  then paths ← all_paths fuel self; Some (eq_loop self other paths)
  else Some (Return false).

(** [paths(key)] for a name: the positions the name index gives, then, for
    every sub-portfolio, its own paths behind its index. *)
Fixpoint paths (self : PriceableImpl) (key : string) : list PortfolioPath :=
  match self with
  | Instrument _ _ => []
  | Portfolio _ _ ps =>
      let own :=
        match index_names 0 ps ∅ !! key with
        | Some (i :: idx) => (λ i, [i]) <$> (i :: idx)
        | _ => []
        end in
      own ++
      (fix enumerate (i : nat) (ps : list PriceableImpl) : list PortfolioPath :=
         match ps with
         | [] => []
         | p :: ps =>
             (if is_portfolio p then (λ sub_path, i :: sub_path) <$> paths p key else [])
             ++ enumerate (S i) ps
         end) 0%nat ps
  end.

(** A Python [set] of priceables is modelled by the list of its elements in
    the order in which they were first added; [tuple(s)] may give them in
    any order, of which this is one.  [same_key stored item] tells whether
    the set takes [item] for the element [stored] that it holds: their
    hashes agree, and they are the same object or [stored == item].  It
    stands for [__hash__] and [__eq__] of portfolios and instruments
    together. *)
Variable same_key : PriceableImpl → PriceableImpl → bool.

(** [item in s] *)
Definition set_contains (s : list PriceableImpl) (item : PriceableImpl) : bool :=
  existsb (λ stored, same_key stored item) s.

(** [s.add(item)] *)
Definition set_add (s : list PriceableImpl) (item : PriceableImpl) : list PriceableImpl :=
  if set_contains s item then s else s ++ [item].

(** [s.update(items)], and [set(items)] as [set_update [] items]. *)
Definition set_update (s items : list PriceableImpl) : list PriceableImpl :=
  foldl set_add s items.

(** The [while stack] loop of [all_portfolios]; the top of [stack] is its
    head, so that [stack.extend(l)] puts the reverse of [l] in front. *)
Fixpoint all_portfolios_loop (fuel : nat) (stack found : list PriceableImpl)
    : option (list PriceableImpl) :=
  match fuel with
  | O => None
  | S fuel =>
      match stack with
      | [] => Some found
      | portfolio :: stack =>
          if set_contains found portfolio
          then all_portfolios_loop fuel stack found
          else
            let sub_portfolios := portfolios portfolio in
            all_portfolios_loop fuel (reverse sub_portfolios ++ stack)
                                (set_update found sub_portfolios)
      end
  end.

(** [self.all_portfolios]; [found] is the set that the source calls
    [portfolios]. *)
Definition all_portfolios (fuel : nat) (self : PriceableImpl) : option (list PriceableImpl) :=
  let stack := portfolios self in
  all_portfolios_loop fuel (reverse stack) (set_update [] stack).

(** The argument of [item in self]: a priceable, a string, or anything
    else. *)
Inductive Item : Type :=
  | ItemPriceable (item : PriceableImpl)
  | ItemStr (item : string)
  | ItemOther.

(** [item in self].  The dictionary [__priceables_lookup] has the copies of
    the priceables as its keys, and finds a key as a set does. *)
Definition __contains__ (fuel : nat) (self : PriceableImpl) (item : Item) : option bool :=
  match item with
  | ItemPriceable item =>
      all_portfolios ← all_portfolios fuel self;
      Some (existsb (λ p, set_contains (priceables p) item) (all_portfolios ++ [self]))
  | ItemStr item =>
      all_portfolios ← all_portfolios fuel self;
      Some (existsb (λ p, bool_decide (is_Some (__priceables_by_name p !! item)))
                    (all_portfolios ++ [self]))
  | ItemOther => Some false
  end.

(** [hash(self)] of a portfolio: the exclusive or of the hashes of its
    name, its id and its priceables.  [hash_str] and [hash_instrument] are
    Python's hashes of names and of instruments; the built-in [hash] turns
    a result of -1 into -2. *)
Variable hash_str : option string → Z.
Variable hash_instrument : option string → I → Z.

Definition builtin_hash (h : Z) : Z := if Z.eqb h (-1) then -2 else h.

Fixpoint __hash__ (self : PriceableImpl) : Z :=
  match self with
  | Instrument name data => hash_instrument name data
  | Portfolio name id ps =>
      foldl (λ hash_code h, Z.lxor hash_code h)
            (Z.lxor (hash_str name) (hash_str id))
            ((λ priceable, builtin_hash (__hash__ priceable)) <$> ps)
  end.

End Model.

Arguments PriceableImpl : clear implicits.

End Portfolios.

(** * Dictionaries and keyword arguments ([gs_quant/base.py]) *)

Module Base.

(** The result of a call that may also raise [KeyError]. *)
Inductive outcome (A : Type) : Type :=
  | Returned (a : A)
  | Raised (e : Exception)
  | KeyError (key : string).

Arguments Returned {A} a.
Arguments Raised {A} e.
Arguments KeyError {A} key.

(** ** [DictBase]

    A [DictBase] is a [dict] with string keys: the finite map of its items.
    [camelize] is [inflection.camelize(_, uppercase_first_letter=False)]
    and [underscore] is [inflection.underscore]; the class gives
    [_PROPERTIES], its name and the names that [dir(self)] lists. *)

Section DictBase.

Context {V : Type}.
Variable camelize : string → string.
Variable underscore : string → string.
Variable _PROPERTIES : gset string.
Variable class_name : string.
Variable dir : gset string.

(** [f"'{self.__class__.__name__}' has no attribute '{item}'"] *)
Definition no_attribute (item : string) : Exception :=
  AttributeError ("'" +:+ class_name +:+ "' has no attribute '" +:+ item +:+ "'").

(** [DictBase(args, **kwargs)]: [args] is the dictionary of the positional
    argument (empty without one) and [kwargs] the keyword arguments in
    their order. *)
Definition __init__ (args : gmap string V) (kwargs : list (string * V))
    : result (gmap string V) :=
  match (if decide (_PROPERTIES ≠ ∅)
         then list_find (λ k, k ∉ _PROPERTIES) kwargs.*1
         else None) with
  | Some (_, invalid_arg) => Raise (no_attribute invalid_arg)
  | None => Return (foldl (λ self kv, <[camelize kv.1 := kv.2]> self) args kwargs)
  end.

(** [self[item]] *)
Definition __getitem__ (self : gmap string V) (item : string) : outcome V :=
  match self !! camelize item with
  | Some value => Returned value
  | None => KeyError (camelize item)
  end.

(** [self[key] = value] *)
Definition __setitem__ (self : gmap string V) (key : string) (value : V) : gmap string V :=
  <[camelize key := value]> self.

(** [self.item], once the attribute is not found in the usual places.
    [self.get(item)] is [None] for a key that is missing. *)
Definition __getattr__ (self : gmap string V) (item : string) : outcome (option V) :=
  if decide (_PROPERTIES ≠ ∅)
  then
    if decide (underscore item ∈ _PROPERTIES)
    then Returned (self !! item)
    else Raised (no_attribute item)
  else
    if decide (is_Some (self !! item))
    then
      match __getitem__ self item with
      | Returned value => Returned (Some value)
      | Raised e => Raised e
      | KeyError key => KeyError key
      end
    else Raised (no_attribute item).

(** What [self.key = value] has changed: an attribute of the object, or the
    items of the dictionary. *)
Inductive Assigned : Type :=
  | ObjectAttribute (key : string) (value : V)
  | Items (self : gmap string V).

(** [self.key = value] *)
Definition __setattr__ (self : gmap string V) (key : string) (value : V) : result Assigned :=
  if decide (key ∈ dir)
  then Return (ObjectAttribute key value)
  else
    if decide (_PROPERTIES ≠ ∅ ∧ underscore key ∉ _PROPERTIES)
    then Raise (no_attribute key)
    else Return (Items (__setitem__ self key value)).

End DictBase.

(** ** The keyword arguments of a constructor ([fix_args])

    [isupper] is [str.isupper], [underscore] is [inflection.underscore] and
    [_field_mappings] is [cls._field_mappings()].  [kwargs] is the list of
    the items of the dictionary of keyword arguments, in their order. *)

Section FixArgs.

Context {V : Type}.
Variable isupper : string → bool.
Variable underscore : string → string.
Variable _field_mappings : gmap string string.

(** ['{} and {} both specified'.format(arg, snake_case_arg)] *)
Definition both_specified (arg snake_case_arg : string) : Exception :=
  ValueError (arg +:+ " and " +:+ snake_case_arg +:+ " both specified").

(** The [for arg, value in kwargs.items()] loop of [wrapper]. *)
Fixpoint normalise (kwargs items : list (string * V)) (normalised_kwargs : gmap string V)
    : result (gmap string V) :=
  match items with
  | [] => Return normalised_kwargs
  | (arg, value) :: items =>
      arg ← (if isupper arg
             then Return arg
             else
               let snake_case_arg := underscore arg in
               if decide (snake_case_arg ≠ arg ∧ snake_case_arg ∈ kwargs.*1)
               then Raise (both_specified arg snake_case_arg)
               else Return snake_case_arg);
      let arg := default arg (_field_mappings !! arg) in
      normalise kwargs items (<[arg := value]> normalised_kwargs)
  end.

(** [wrapper(self, *args, name=None, **kwargs)]; [init] is the constructor
    that [fix_args] wraps and [set_name] is [self.name = name]. *)
Definition wrapper {Self Args : Type}
    (init : Self → Args → gmap string V → result Self)
    (set_name : Self → string → result Self)
    (self : Self) (args : Args) (name : option string) (kwargs : list (string * V))
    : result Self :=
  normalised_kwargs ← normalise kwargs kwargs ∅;
  self ← init self args normalised_kwargs;
  match name with
  | Some name => set_name self name
  | None => Return self
  end.

End FixArgs.

End Base.

(** * The backtest engine: specifications and proofs *)

Module EngineProofs.

Import Backtests.

(** ** Facts about the Python containers *)

Section Containers.

Context {A : Type} `{EqDecision A}.

Lemma fromkeys_from_elem (l keys : list A) (x : A) :
  x ∈ foldl fromkeys_step keys l ↔ x ∈ keys ∨ x ∈ l.
Proof.
  revert keys. induction l as [|k l IH]; intros keys; simpl.
  - set_solver.
  - rewrite IH. unfold fromkeys_step. case_decide; set_solver.
Qed.

Lemma fromkeys_from_NoDup (l keys : list A) :
  NoDup keys → NoDup (foldl fromkeys_step keys l).
Proof.
  revert keys. induction l as [|k l IH]; intros keys Hk; simpl; [done|].
  apply IH. unfold fromkeys_step. case_decide; [done|].
  apply NoDup_app. repeat split; [done| |apply NoDup_singleton].
  intros x Hx Hx'. apply list_elem_of_singleton in Hx'. by subst.
Qed.

Lemma fromkeys_from_id (l keys : list A) :
  NoDup (keys ++ l) → foldl fromkeys_step keys l = keys ++ l.
Proof.
  revert keys. induction l as [|k l IH]; intros keys Hk; simpl.
  - by rewrite app_nil_r.
  - assert (k ∉ keys) as Hnot.
    { apply NoDup_app in Hk as (_ & Hk & _). intros Hin. apply (Hk k Hin). left. }
    unfold fromkeys_step. rewrite decide_False by done.
    rewrite IH; rewrite <- app_assoc; done.
Qed.

Lemma elem_of_dict_fromkeys (l : list A) (x : A) : x ∈ dict_fromkeys l ↔ x ∈ l.
Proof. unfold dict_fromkeys. rewrite (fromkeys_from_elem l [] x). set_solver. Qed.

Lemma NoDup_dict_fromkeys (l : list A) : NoDup (dict_fromkeys l).
Proof. apply (fromkeys_from_NoDup l []). constructor. Qed.

Lemma dict_fromkeys_NoDup_id (l : list A) : NoDup l → dict_fromkeys l = l.
Proof. intros Hl. apply (fromkeys_from_id l []). done. Qed.

End Containers.

Lemma foldl_app_concat {A B : Type} (f : B → list A) (l : list B) (acc : list A) :
  foldl (λ acc b, acc ++ f b) acc l = acc ++ (l ≫= f).
Proof.
  revert acc. induction l as [|b l IH]; intros acc; simpl.
  - by rewrite app_nil_r.
  - rewrite IH. by rewrite app_assoc.
Qed.

Lemma foldl_snoc_map {A B : Type} (f : B → A) (l : list B) (acc : list A) :
  foldl (λ acc b, acc ++ [f b]) acc l = acc ++ map f l.
Proof.
  revert acc. induction l as [|b l IH]; intros acc; simpl.
  - by rewrite app_nil_r.
  - rewrite IH. by rewrite <- app_assoc.
Qed.

(** ** The timer *)

Definition datetime_le (a b : datetime) : Prop := a = b ∨ datetime_lt a b.

Section Timer.

Context {W Fill Info : Type}.
Implicit Types (self : PredefinedAssetEngine W Fill Info) (strategy : Strategy W Info).

(** The times of day every trigger declares, in declaration order. *)
Definition declared_times strategy : list time :=
  triggers strategy ≫= get_trigger_times.

(** The times of day of one date of the timer. *)
Definition timer_times self strategy : list time :=
  dict_fromkeys (declared_times strategy ++ [_eod_valuation_time self]).

Lemma timer_loops (dates : list date) (times : list time) (acc : list datetime) :
  foldl (λ all_times d,
           foldl (λ all_times t, all_times ++ [combine d t]) all_times times)
        acc dates
  = acc ++ (dates ≫= (λ d, combine d <$> times)).
Proof.
  revert acc. induction dates as [|d dates IH]; intros acc.
  - cbn. by rewrite app_nil_r.
  - cbn [foldl]. rewrite IH, (foldl_snoc_map (combine d)).
    cbn. by rewrite <- app_assoc.
Qed.

Lemma _timer_unfold self strategy (start end_ : date) :
  _timer self strategy start end_ =
    date_range (collaborators self) start end_ (calendars self)
      ≫= (λ d, combine d <$> timer_times self strategy).
Proof.
  unfold _timer, timer_times, declared_times.
  rewrite (foldl_app_concat get_trigger_times), app_nil_l.
  by rewrite timer_loops.
Qed.

Lemma elem_of_timer_times self strategy (t : time) :
  t ∈ timer_times self strategy ↔
  t ∈ declared_times strategy ∨ t = _eod_valuation_time self.
Proof.
  unfold timer_times. rewrite elem_of_dict_fromkeys, elem_of_app, list_elem_of_singleton.
  done.
Qed.

Lemma elem_of_product (dates : list date) (times : list time) (x : datetime) :
  x ∈ dates ≫= (λ d, combine d <$> times) ↔ dt_date x ∈ dates ∧ dt_time x ∈ times.
Proof.
  rewrite list_elem_of_bind. split.
  - intros (d & Hx & Hd). apply list_elem_of_fmap in Hx as (t & -> & Ht). done.
  - intros [Hd Ht]. exists (dt_date x). split; [|done].
    apply list_elem_of_fmap. exists (dt_time x). by destruct x.
Qed.

Lemma NoDup_product (dates : list date) (times : list time) :
  NoDup dates → NoDup times → NoDup (dates ≫= (λ d, combine d <$> times)).
Proof.
  intros Hd Ht. induction Hd as [|d dates Hnot Hd IH]; simpl; [constructor|].
  apply NoDup_app. repeat split; [|intros x Hx Hx'|done].
  - apply NoDup_fmap_2_strong; [|done]. by intros t t' _ _ [=].
  - apply list_elem_of_fmap in Hx as (t & -> & _).
    apply elem_of_product in Hx' as [Hx' _]. done.
Qed.

Lemma sorted_block (d : date) (times : list time) (later : list datetime) :
  StronglySorted Z.lt times →
  Forall (λ x, d < dt_date x) later →
  StronglySorted datetime_lt later →
  StronglySorted datetime_lt ((combine d <$> times) ++ later).
Proof.
  intros Ht Hlater Hsorted.
  induction Ht as [|t times Ht IHt Hallt]; simpl; [done|].
  constructor; [done|]. apply Forall_app. split.
  - apply Forall_fmap. eapply Forall_impl; [exact Hallt|].
    intros t' Hlt. right. done.
  - eapply Forall_impl; [exact Hlater|]. intros x Hx. left. done.
Qed.

Lemma sorted_product (dates : list date) (times : list time) :
  StronglySorted Z.lt dates → StronglySorted Z.lt times →
  StronglySorted datetime_lt (dates ≫= (λ d, combine d <$> times)).
Proof.
  intros Hd Ht. induction Hd as [|d dates Hd IH Hall]; simpl; [constructor|].
  apply sorted_block; [done| |done].
  apply Forall_forall. intros x Hx.
  apply elem_of_product in Hx as [Hx _].
  rewrite Forall_forall in Hall. by apply Hall.
Qed.

Lemma length_product (dates : list date) (times : list time) :
  length (dates ≫= (λ d, combine d <$> times)) = (length dates * length times)%nat.
Proof.
  induction dates as [|d dates IH]; [done|].
  rewrite bind_cons, length_app, length_fmap, IH. done.
Qed.

Lemma StronglySorted_lt_NoDup (l : list Z) : StronglySorted Z.lt l → NoDup l.
Proof.
  induction 1 as [|x l Hl IH Hall]; constructor; [|done].
  intros Hin. rewrite Forall_forall in Hall. specialize (Hall x Hin). lia.
Qed.

(** C1 (amended).  Over an ascending date range, the timer is the date range
    expanded against the deduplicated times of day (the times the triggers
    declare, in the order they are first declared, then the end-of-day
    valuation time unless a trigger declared it): one timestamp per
    (date, time) pair, the end-of-day time on every date, no timestamp
    twice.  The sequence is left in that order; it is ascending when the
    deduplicated times are ascending. *)
Theorem timer_spec self strategy (start end_ : date) :
  let dates := date_range (collaborators self) start end_ (calendars self) in
  let times := timer_times self strategy in
  let timer := _timer self strategy start end_ in
  StronglySorted Z.lt dates →
    timer = dates ≫= (λ d, combine d <$> times)
  ∧ (∀ d t, combine d t ∈ timer ↔
        d ∈ dates ∧ (t ∈ declared_times strategy ∨ t = _eod_valuation_time self))
  ∧ (∀ d, d ∈ dates → combine d (_eod_valuation_time self) ∈ timer)
  ∧ NoDup times
  ∧ NoDup timer
  ∧ length timer = (length dates * length times)%nat
  ∧ (StronglySorted Z.lt times → StronglySorted datetime_lt timer).
Proof.
  intros dates times timer Hdates.
  assert (timer = dates ≫= (λ d, combine d <$> times)) as Heq
    by apply _timer_unfold.
  assert (NoDup times) as Htimes by apply NoDup_dict_fromkeys.
  assert (∀ d t, combine d t ∈ timer ↔
        d ∈ dates ∧ (t ∈ declared_times strategy ∨ t = _eod_valuation_time self)) as Hin.
  { intros d t. rewrite Heq, elem_of_product. simpl.
    unfold times. by rewrite elem_of_timer_times. }
  split_and!; try done.
  - intros d Hd. apply Hin. auto.
  - rewrite Heq. apply NoDup_product; [|done]. by apply StronglySorted_lt_NoDup.
  - rewrite Heq. apply length_product.
  - intros Hsorted. rewrite Heq. by apply sorted_product.
Qed.

End Timer.

(** ** [AddTradeActionImpl] and handler dispatch *)

Section Dispatch.

Context {W Fill Info : Type}.
Implicit Types (self : PredefinedAssetEngine W Fill Info) (strategy : Strategy W Info).

Definition opening_order (action : Action) (state : datetime) (p : Priceable)
    : OrderAtMarket :=
  {| instrument := p; quantity := instrument_quantity p;
     generation_time := state; execution_datetime := state;
     source := _name action |}.

Definition closing_order (action : Action) (state execution : datetime)
    (p : Priceable) : OrderAtMarket :=
  {| instrument := p; quantity := - instrument_quantity p;
     generation_time := state; execution_datetime := execution;
     source := _name action |}.

Lemma generate_orders_loop_open (action : Action) (state : datetime)
    (ps : list Priceable) (orders : list OrderAtMarket) :
  (∀ td, trade_duration action ≠ DurTimedelta td) →
  generate_orders_loop action state ps orders
  = Return (orders ++ (opening_order action state <$> ps)).
Proof.
  intros Hdur. revert orders. induction ps as [|p ps IH]; intros orders; simpl.
  - by rewrite app_nil_r.
  - unfold orders_for.
    destruct (trade_duration action) eqn:E; try (by destruct (Hdur td));
      simpl; rewrite IH, <- app_assoc; done.
Qed.

Lemma generate_orders_loop_close (action : Action) (state execution : datetime)
    (td : timedelta) (ps : list Priceable) (orders : list OrderAtMarket) :
  trade_duration action = DurTimedelta td →
  datetime_add state td = Return execution →
  generate_orders_loop action state ps orders
  = Return (orders ++ (ps ≫= λ p, [opening_order action state p;
                                   closing_order action state execution p])).
Proof.
  intros Hdur Hadd. revert orders. induction ps as [|p ps IH]; intros orders.
  - simpl. by rewrite app_nil_r.
  - cbn [generate_orders_loop]. unfold orders_for. rewrite Hdur, Hadd.
    cbn [mbind result_bind mret result_ret]. rewrite IH, bind_cons, <- app_assoc.
    unfold closing_order, opening_order.
    replace (instrument_quantity p * -1) with (- instrument_quantity p) by lia.
    done.
Qed.

Lemma generate_orders_loop_overflow (action : Action) (state : datetime)
    (td : timedelta) (e : Exception) (p : Priceable) (ps : list Priceable)
    (orders : list OrderAtMarket) :
  trade_duration action = DurTimedelta td →
  datetime_add state td = Raise e →
  generate_orders_loop action state (p :: ps) orders = Raise e.
Proof.
  intros Hdur Hadd. cbn [generate_orders_loop]. unfold orders_for.
  by rewrite Hdur, Hadd.
Qed.

(** C3 (amended).  [apply_action] of the add-trade handler returns, for each
    configured priceable in turn, one market order with the priceable's
    quantity and generation time = execution time = [state]; when the
    action's [trade_duration] is a [dt.timedelta] it is followed by a
    closing order with the quantity negated and execution time
    [state + trade_duration] (if that sum leaves the range of [datetime]
    the addition raises [OverflowError]).  For any other [trade_duration]
    ([None], a tenor, a date) only the opening orders are returned. *)
Theorem apply_action_spec (action : Action) (state : datetime) (backtest : W)
    (info : option Info) :
  let orders :=
    apply_action (AddTradeActionImpl action) state backtest info in
  match trade_duration action with
  | DurTimedelta td =>
      match datetime_add state td with
      | Return execution =>
          orders = Return (priceables action ≫= λ p,
                     [opening_order action state p;
                      closing_order action state execution p])
          ∧ dt_date execution * us_per_day + dt_time execution
            = dt_date state * us_per_day + dt_time state + td
      | Raise e =>
          orders = match priceables action with [] => Return [] | _ => Raise e end
      end
  | _ => orders = Return (opening_order action state <$> priceables action)
  end.
Proof.
  cbn zeta. cbn [apply_action AddTradeActionImpl]. unfold generate_orders.
  destruct (trade_duration action) as [|td|tenor|d] eqn:Hdur.
  - rewrite generate_orders_loop_open; [done|]. intros td. by rewrite Hdur.
  - destruct (datetime_add state td) as [execution|e] eqn:Hadd.
    + split; [by rewrite (generate_orders_loop_close _ _ execution td)|].
      unfold datetime_add in Hadd. case_bool_decide; [|done].
      injection Hadd as <-. simpl.
      pose proof (Z.div_mod (dt_date state * us_per_day + dt_time state + td)
                    us_per_day) as Hdm.
      unfold us_per_day in *. lia.
    + destruct (priceables action) as [|p ps]; [done|].
      by apply generate_orders_loop_overflow with td.
  - rewrite generate_orders_loop_open; [done|]. intros td. by rewrite Hdur.
  - rewrite generate_orders_loop_open; [done|]. intros td. by rewrite Hdur.
Qed.

(** *** Dispatch on the exact type *)

Definition registered self (action : Action) : Prop :=
  is_Some (action_impl_map self !! action_type action).

#[local] Instance registered_dec self action : Decision (registered self action).
Proof. unfold registered. apply _. Defined.

(** Every action of every trigger, in the order [supports_strategy] visits
    them. *)
Definition all_actions strategy : list Action := triggers strategy ≫= actions.

Lemma get_action_handler_registered self action :
  registered self action → ∃ h, get_action_handler self action = Return h.
Proof. intros [impl Himpl]. unfold get_action_handler. rewrite Himpl. eauto. Qed.

Lemma get_action_handler_unregistered self action :
  ¬ registered self action →
  get_action_handler self action = Raise (unsupported (action_type action)).
Proof.
  intros Hnot. unfold get_action_handler.
  destruct (action_impl_map self !! action_type action) eqn:E; [|done].
  destruct Hnot. by eexists.
Qed.

Lemma resolve_all_ok self (acts : list Action) :
  Forall (registered self) acts → resolve_all self acts = Return ().
Proof.
  induction 1 as [|a acts Ha _ IH]; simpl; [done|].
  destruct (get_action_handler_registered _ _ Ha) as [h ->]. done.
Qed.

Lemma resolve_all_raises self (acts : list Action) :
  ¬ Forall (registered self) acts →
  ∃ a, a ∈ acts ∧ ¬ registered self a ∧
       resolve_all self acts = Raise (unsupported (action_type a)).
Proof.
  induction acts as [|a acts IH]; intros Hnot.
  - destruct Hnot. constructor.
  - destruct (decide (registered self a)) as [Ha|Ha].
    + destruct IH as (b & Hb & Hnb & Hres).
      { intros Hall. apply Hnot. by constructor. }
      exists b. split_and!; [by right|done|].
      simpl. destruct (get_action_handler_registered _ _ Ha) as [h ->]. done.
    + exists a. split_and!; [by left|done|].
      simpl. by rewrite get_action_handler_unregistered.
Qed.

Lemma reduce_concat_actions strategy :
  triggers strategy ≠ [] →
  reduce_concat (map actions (triggers strategy)) = Return (all_actions strategy).
Proof.
  unfold all_actions. destruct (triggers strategy) as [|t ts]; [done|]. intros _.
  cbn [reduce_concat map]. f_equal. rewrite bind_cons.
  generalize (actions t) as acc.
  induction ts as [|t' ts IH]; intros acc; cbn [foldl map].
  - by rewrite app_nil_r.
  - rewrite IH, bind_cons. by rewrite app_assoc.
Qed.

Lemma supports_strategy_decide self strategy :
  triggers strategy ≠ [] →
  supports_strategy self strategy
  = Return (bool_decide (Forall (registered self) (all_actions strategy))).
Proof.
  intros Hne. unfold supports_strategy. rewrite reduce_concat_actions by done.
  cbn [mbind result_bind]. case_bool_decide as Hall.
  - by rewrite resolve_all_ok.
  - destruct (resolve_all_raises _ _ Hall) as (a & _ & _ & ->). done.
Qed.

End Dispatch.

(** ** The event loop *)

Section EventLoop.

Context {W Fill Info : Type}.
Implicit Types (self : PredefinedAssetEngine W Fill Info) (strategy : Strategy W Info).
Implicit Types (s : RunState W Fill) (state : datetime).

(** The events of one timer step in the order the step appends them: the
    fills the execution engine reports, the market event, the valuation
    event when the time of day is the end-of-day valuation time, then the
    order events produced while the deque is drained. *)
Definition opening_events self state (fills : list Fill) : list (Event Fill) :=
  (FillEvent <$> fills) ++
  MarketEvent ::
  (if bool_decide (dt_time state = _eod_valuation_time self)
   then [ValuationEvent] else []).

Definition step_events self state (fills : list Fill) (orders : list OrderAtMarket)
    : list (Event Fill) :=
  opening_events self state fills ++ (OrderEvent <$> orders).

Definition is_block self state (block : list (datetime * Event Fill)) : Prop :=
  ∃ fills orders, block = pair state <$> step_events self state fills orders.

(** [s'] is [s] with the order events of [orders] appended to the deque. *)
Definition appended state s s' (orders : list OrderAtMarket) : Prop :=
  events s' = events s ++ (OrderEvent <$> orders) ∧
  enqueued s' = enqueued s ++ (pair state <$> (OrderEvent <$> orders)) ∧
  processed s' = processed s.

Lemma appended_nil state s s' :
  events s' = events s → enqueued s' = enqueued s → processed s' = processed s →
  appended state s s' [].
Proof. intros He Hq Hp. unfold appended. simpl. by rewrite !app_nil_r. Qed.

Lemma appended_trans state s1 s2 s3 orders orders' :
  appended state s1 s2 orders → appended state s2 s3 orders' →
  appended state s1 s3 (orders ++ orders').
Proof.
  intros (He & Hq & Hp) (He' & Hq' & Hp'). unfold appended.
  rewrite He', He, Hq', Hq, Hp', Hp, !fmap_app, !app_assoc. done.
Qed.

Lemma for_actions_appended self state trigger_info (acts : list Action) s :
  ∃ orders, appended state s (for_actions self state trigger_info acts s).2 orders.
Proof.
  revert s. induction acts as [|action acts IH]; intros s; cbn [for_actions].
  - exists []. by apply appended_nil.
  - destruct (get_action_handler self action) as [handler|e].
    2:{ exists []. by apply appended_nil. }
    destruct (apply_action handler state (world s) _) as [orders|e].
    2:{ exists []. by apply appended_nil. }
    match goal with |- context [for_actions _ _ _ _ ?s1] =>
      destruct (IH s1) as [orders' Happ] end.
    exists (orders ++ orders'). eapply appended_trans; [|exact Happ].
    unfold appended. done.
Qed.

Lemma for_triggers_appended self state (trigs : list (Trigger W Info)) s :
  ∃ orders, appended state s (for_triggers self state trigs s).2 orders.
Proof.
  revert s. induction trigs as [|trigger trigs IH]; intros s; cbn [for_triggers].
  - exists []. by apply appended_nil.
  - destruct (triggered _); [|apply IH].
    destruct (for_actions_appended self state
                (has_triggered trigger state (world s)) (actions trigger) s)
      as [orders Happ].
    destruct (for_actions self state _ (actions trigger) s) as [[[]|e] s1].
    + destruct (IH s1) as [orders' Happ']. exists (orders ++ orders').
      by eapply appended_trans.
    + by exists orders.
Qed.

(** Only a market event appends to the deque, and only a market event can
    raise. *)
Lemma dispatch_appended self strategy state (event : Event Fill) s :
  ∃ orders, appended state s (dispatch self strategy state event s).2 orders ∧
    (event ≠ MarketEvent →
       orders = [] ∧ (dispatch self strategy state event s).1 = Return ()).
Proof.
  destruct event as [| |o|f]; cbn.
  - destruct (for_triggers_appended self state (triggers strategy) s) as [orders H].
    exists orders. done.
  - exists []. split; [by apply appended_nil|done].
  - exists []. split; [by apply appended_nil|done].
  - exists []. split; [by apply appended_nil|done].
Qed.

(** A deque [queue ++ orders]: every event of [queue] is taken in turn, the
    order events it produces queue up behind [pending], and the loop ends
    with an empty deque, or with the exception a market event raised. *)
Lemma drain_queue self strategy state (queue : list (Event Fill)) :
  ∀ (pending : list OrderAtMarket) s,
  events s = queue ++ (OrderEvent <$> pending) →
  ∃ fuel0 r s' orders,
    (∀ fuel, (fuel0 ≤ fuel)%nat → drain fuel self strategy state s = Some (r, s')) ∧
    enqueued s' = enqueued s ++ (pair state <$> (OrderEvent <$> orders)) ∧
    match r with
    | Return _ =>
        events s' = [] ∧
        processed s' = processed s ++
          (pair state <$> (queue ++ (OrderEvent <$> (pending ++ orders))))
    | Raise e =>
        ∃ pre post, queue = pre ++ MarketEvent :: post ∧
          processed s' = processed s ++ (pair state <$> (pre ++ [MarketEvent]))
    end.
Proof.
  induction queue as [|event queue IH].
  - (* only order events are left *)
    intros pending. induction pending as [|o pending IHp]; intros s Hs.
    + simpl in Hs. exists 1%nat, (Return ()), s, []. refine (conj _ (conj _ _)).
      * intros [|fuel] Hfuel; [lia|]. cbn [drain]. by rewrite Hs.
      * by rewrite app_nil_r.
      * split; [done|]. by rewrite app_nil_r.
    + simpl in Hs.
      set (s1 := (dispatch self strategy state (OrderEvent o)
                    (popleft state (OrderEvent o) (OrderEvent <$> pending) s)).2).
      destruct (IHp s1) as (fuel0 & r & s' & orders & Hrun & Henq & Hr); [done|].
      exists (S fuel0), r, s', orders. refine (conj _ (conj _ _)).
      * intros [|fuel] Hfuel; [lia|]. cbn [drain]. rewrite Hs.
        cbn. apply Hrun. lia.
      * by rewrite Henq.
      * destruct r as [[]|e].
        -- destruct Hr as [He Hp]. split; [done|]. rewrite Hp. cbn.
           by rewrite <- app_assoc.
        -- destruct Hr as (pre & post & Hq & _). by destruct pre.
  - intros pending s Hs. rewrite <- app_comm_cons in Hs.
    destruct (dispatch_appended self strategy state event
                (popleft state event (queue ++ (OrderEvent <$> pending)) s))
      as (new & (He1 & Hq1 & Hp1) & Hquiet).
    destruct (dispatch self strategy state event
                (popleft state event (queue ++ (OrderEvent <$> pending)) s))
      as [r1 s1] eqn:Hdisp.
    cbn [snd fst popleft events enqueued processed] in He1, Hq1, Hp1, Hquiet.
    destruct r1 as [[]|e].
    + destruct (IH (pending ++ new) s1) as (fuel0 & r & s' & orders & Hrun & Henq & Hr).
      { by rewrite He1, fmap_app, app_assoc. }
      exists (S fuel0), r, s', (new ++ orders). refine (conj _ (conj _ _)).
      * intros [|fuel] Hfuel; [lia|]. cbn [drain]. rewrite Hs, Hdisp.
        apply Hrun. lia.
      * by rewrite Henq, Hq1, !fmap_app, app_assoc.
      * destruct r as [[]|e].
        -- destruct Hr as [He Hp]. split; [done|]. rewrite Hp, Hp1.
           rewrite <- !app_assoc. done.
        -- destruct Hr as (pre & post & -> & Hp). exists (event :: pre), post.
           split; [done|]. rewrite Hp, Hp1. rewrite <- !app_assoc. done.
    + assert (event = MarketEvent) as ->.
      { destruct event; try done; by destruct Hquiet as [_ ?]. }
      exists 1%nat, (Raise e), s1, new. refine (conj _ (conj _ _)).
      * intros [|fuel] Hfuel; [lia|]. cbn [drain]. by rewrite Hs, Hdisp.
      * done.
      * exists [], queue. done.
Qed.

Lemma begin_step_opening self state s :
  let fills := (execution_engine_ping (collaborators self) state
                  (data_handler_update (collaborators self) state (world s))).1 in
  events (begin_step self state s) = events s ++ opening_events self state fills ∧
  enqueued (begin_step self state s)
    = enqueued s ++ (pair state <$> opening_events self state fills) ∧
  processed (begin_step self state s) = processed s.
Proof.
  unfold begin_step, opening_events. cbn.
  destruct (execution_engine_ping _ _ _) as [fills w]. cbn.
  case_bool_decide; cbn; rewrite <- ?app_assoc, ?fmap_app; done.
Qed.

(** The market event of a step is the first market event of its deque. *)
Lemma first_market (fills : list Fill) (rest pre post : list (Event Fill)) :
  (FillEvent <$> fills) ++ MarketEvent :: rest = pre ++ MarketEvent :: post →
  MarketEvent ∉ rest →
  pre = FillEvent <$> fills ∧ post = rest.
Proof.
  intros Heq Hrest. revert pre Heq. induction fills as [|f fills IH]; intros pre Heq.
  - destruct pre as [|e pre]; [by injection Heq as <-|].
    injection Heq as <- ->. destruct Hrest. apply elem_of_app. right. left.
  - destruct pre as [|e pre]; [done|].
    injection Heq as <- Heq. destruct (IH pre Heq) as [-> ->]. done.
Qed.

Lemma valuation_not_market self state :
  (MarketEvent : Event Fill) ∉
    (if bool_decide (dt_time state = _eod_valuation_time self)
     then [ValuationEvent] else []).
Proof.
  case_bool_decide; [|apply not_elem_of_nil].
  intros Hin. apply list_elem_of_singleton in Hin. done.
Qed.

(** A run that ended normally: the deque is empty and both logs are the
    concatenation of one block per timestamp of the timer, in timer order. *)
Definition completed self (timer : list datetime) s0 s' : Prop :=
  events s' = [] ∧
  ∃ blocks, Forall2 (is_block self) timer blocks ∧
    processed s' = processed s0 ++ concat blocks ∧
    enqueued s' = enqueued s0 ++ concat blocks.

(** A run that a market event aborted: complete blocks for the timestamps
    before [state], then the fills and the market event of [state]; what
    was appended and not yet taken is [later]. *)
Definition aborted self (timer : list datetime) s0 s' : Prop :=
  ∃ done state rest blocks (fills : list Fill) later,
    timer = done ++ state :: rest ∧
    Forall2 (is_block self) done blocks ∧
    processed s' = processed s0 ++ concat blocks ++
      (pair state <$> ((FillEvent <$> fills) ++ [MarketEvent])) ∧
    enqueued s' = enqueued s0 ++ concat blocks ++
      (pair state <$> ((FillEvent <$> fills) ++ [MarketEvent])) ++
      (pair state <$> later).

Lemma run_loop_spec self strategy (timer : list datetime) :
  ∀ s, events s = [] →
  ∃ fuel0 r s',
    (∀ fuel, (fuel0 ≤ fuel)%nat →
       run_loop fuel self strategy timer s = Some (r, s')) ∧
    match r with
    | Return _ => completed self timer s s'
    | Raise _ => aborted self timer s s'
    end.
Proof.
  induction timer as [|state timer IH]; intros s Hs.
  - exists 0%nat, (Return ()), s. split; [done|].
    split; [done|]. exists []. split_and!; [constructor|..]; by rewrite app_nil_r.
  - destruct (begin_step_opening self state s) as (He & Hq & Hp).
    rewrite Hs, app_nil_l in He.
    set (fills := (execution_engine_ping _ _ _).1) in *.
    destruct (drain_queue self strategy state _ [] _
                (eq_trans He (eq_sym (app_nil_r _))))
      as (fuel1 & r1 & s1 & orders & Hrun1 & Hq1 & Hr1).
    destruct r1 as [[]|e].
    + destruct Hr1 as [He1 Hp1].
      destruct (IH s1 He1) as (fuel2 & r & s' & Hrun & Hr).
      exists (fuel1 `max` fuel2)%nat, r, s'. split.
      { intros fuel Hfuel. cbn [run_loop]. rewrite Hrun1 by lia. apply Hrun. lia. }
      assert (is_block self state
                (pair state <$> step_events self state fills orders)) as Hblock
        by (by exists fills, orders).
      assert (processed s1 = processed s ++
                (pair state <$> step_events self state fills orders)) as Hp1'.
      { rewrite Hp1, Hp. done. }
      assert (enqueued s1 = enqueued s ++
                (pair state <$> step_events self state fills orders)) as Hq1'.
      { rewrite Hq1, Hq. unfold step_events. by rewrite <- app_assoc, fmap_app. }
      destruct r as [[]|e].
      * destruct Hr as (He' & blocks & Hblocks & Hp' & Hq').
        split; [done|].
        exists ((pair state <$> step_events self state fills orders) :: blocks).
        split_and!.
        -- constructor; [exact Hblock|exact Hblocks].
        -- rewrite Hp', Hp1'. cbn [concat]. by rewrite <- app_assoc.
        -- rewrite Hq', Hq1'. cbn [concat]. by rewrite <- app_assoc.
      * destruct Hr as (done & state' & rest & blocks & fills' & later
                        & -> & Hblocks & Hp' & Hq').
        exists (state :: done), state', rest,
          ((pair state <$> step_events self state fills orders) :: blocks),
          fills', later.
        split_and!.
        -- done.
        -- constructor; [exact Hblock|exact Hblocks].
        -- rewrite Hp', Hp1'. cbn [concat]. by rewrite <- !app_assoc.
        -- rewrite Hq', Hq1'. cbn [concat]. by rewrite <- !app_assoc.
    + destruct Hr1 as (pre & post & Hsplit & Hp1).
      apply first_market in Hsplit as [-> ->]; [|apply valuation_not_market].
      exists fuel1, (Raise e), s1. split.
      { intros fuel Hfuel. cbn [run_loop]. by rewrite Hrun1. }
      exists [], state, timer, [], fills,
        ((if bool_decide (dt_time state = _eod_valuation_time self)
          then [ValuationEvent] else []) ++ (OrderEvent <$> orders)).
      split_and!.
      * done.
      * constructor.
      * rewrite Hp1, Hp. done.
      * rewrite Hq1, Hq. unfold opening_events. cbn [concat app].
        rewrite !fmap_app, <- !app_assoc. done.
Qed.

(** C2.  [_run] terminates, and in every run the events are taken from the
    deque in the order they were appended.  A run that returns has emptied
    the deque after every timestamp: its log of processed events equals its
    log of appended events and is one block per timestamp, in timer order,
    each block made of the step's fills, its market event, its valuation
    event if due, and then the order events appended while the block was
    drained.  So an order event produced at a timestamp is processed after
    the market event of that timestamp and before every event of a later
    one.  A run that raises stops inside the market event of a timestamp,
    after complete blocks for the earlier ones. *)
Theorem run_fifo self strategy (timer : list datetime) (backtest : W) :
  ∃ fuel0 r s',
    (∀ fuel, (fuel0 ≤ fuel)%nat →
       _run fuel self strategy timer backtest = Some (r, s')) ∧
    match r with
    | Return _ =>
        events s' = [] ∧ processed s' = enqueued s' ∧
        ∃ blocks, Forall2 (is_block self) timer blocks ∧
                  processed s' = concat blocks
    | Raise _ =>
        ∃ done state rest blocks (fills : list Fill) later,
          timer = done ++ state :: rest ∧
          Forall2 (is_block self) done blocks ∧
          processed s' = concat blocks ++
            (pair state <$> ((FillEvent <$> fills) ++ [MarketEvent])) ∧
          enqueued s' = processed s' ++ (pair state <$> later)
    end.
Proof.
  unfold _run.
  destruct (run_loop_spec self strategy timer
              {| world := backtest; events := []; enqueued := []; processed := [] |}
              eq_refl) as (fuel0 & r & s' & Hrun & Hr).
  exists fuel0, r, s'. split; [exact Hrun|].
  destruct r as [[]|e].
  - destruct Hr as (He & blocks & Hblocks & Hp & Hq). cbn in Hp, Hq.
    split_and!; [done|congruence|]. by exists blocks.
  - destruct Hr as (done & state & rest & blocks & fills & later
                    & Ht & Hblocks & Hp & Hq). cbn in Hp, Hq.
    exists done, state, rest, blocks, fills, later.
    split_and!; [done|done|done|]. rewrite Hq, Hp. by rewrite <- app_assoc.
Qed.

(** *** Handler resolution inside the loop *)



(** C10.  Dispatch is on the exact type: an action whose type is a strict
    subclass of a registered type, and is not itself registered, makes
    [get_action_handler] raise the unsupported-action error and makes
    [supports_strategy] return false for every strategy that contains it. *)
Theorem exact_type_dispatch self (action : Action) (base : PyClass) :
  strict_subclass (action_type action) base →
  is_Some (action_impl_map self !! base) →
  action_impl_map self !! action_type action = None →
  get_action_handler self action = Raise (unsupported (action_type action)) ∧
  ∀ strategy trigger,
    trigger ∈ triggers strategy → action ∈ actions trigger →
    supports_strategy self strategy = Return false.
Proof.
  intros _ _ Hnone.
  assert (¬ registered self action) as Hnot.
  { unfold registered. rewrite Hnone. by intros [? ?]. }
  split; [by apply get_action_handler_unregistered|].
  intros strategy trigger Htr Hact.
  rewrite supports_strategy_decide.
  - f_equal. apply bool_decide_eq_false. intros Hall.
    rewrite Forall_forall in Hall. apply Hnot, Hall.
    unfold all_actions. apply list_elem_of_bind. eauto.
  - intros Hnil. rewrite Hnil in Htr. by apply not_elem_of_nil in Htr.
Qed.

End EventLoop.

(** ** A concrete setting for the examples

    Collaborators without state: every day is a business day, nothing is
    ever filled.  Dates are ordinals; 738000 is 2021-07-29. *)

Definition every_day (start end_ : date) (calendars : list string) : list date :=
  seqZ start (end_ - start + 1).

Definition quiet : Collaborators () () :=
  {| date_range := every_day;
     init_backtest := λ _ w, w;
     data_handler_update := λ _ w, w;
     execution_engine_ping := λ _ w, ([], w);
     execution_engine_submit_order := λ _ w, w;
     backtest_record_orders := λ _ w, w;
     backtest_update_fill := λ _ w, w;
     backtest_mark_to_market := λ _ _ w, w |}.

Definition AddTradeAction_class : PyClass :=
  {| cls_name := "AddTradeAction"; cls_bases := ["Action"; "object"] |}.

Definition demo_engine : PredefinedAssetEngine () () () :=
  {| action_impl_map := {[ AddTradeAction_class := AddTradeActionImpl ]};
     calendars := ["CME"];
     valuation_method := {| window := None |};
     collaborators := quiet |}.

Definition never : datetime → () → TriggerInfo () :=
  λ _ _, {| triggered := false; info_dict := None |}.


Definition at_times (times : list time) (acts : list Action) : Trigger () () :=
  {| get_trigger_times := times; actions := acts;
     has_triggered := λ state _,
       {| triggered := bool_decide (dt_time state ∈ times); info_dict := None |} |}.

Definition ten : time := mk_time 10 0 0 0.
Definition fifteen : time := mk_time 15 0 0 0.

(** Two triggers, the first evaluated at 10:00 and the second at 15:00. *)
Definition morning_first : Strategy () () :=
  {| triggers := [at_times [ten] []; at_times [fifteen] []] |}.

(** The same two triggers declared the other way round. *)
Definition afternoon_first : Strategy () () :=
  {| triggers := [at_times [fifteen] []; at_times [ten] []] |}.

Lemma timer_spec_witness :
  StronglySorted Z.lt (every_day 738000 738001 ["CME"]) ∧
  StronglySorted Z.lt (timer_times demo_engine morning_first) ∧
  NoDup (_timer demo_engine morning_first 738000 738001) ∧
  StronglySorted datetime_lt (_timer demo_engine morning_first 738000 738001).
Proof.
  assert (StronglySorted Z.lt (every_day 738000 738001 ["CME"])) as Hdates
    by (vm_compute; repeat constructor).
  assert (StronglySorted Z.lt (timer_times demo_engine morning_first)) as Htimes
    by (vm_compute; repeat constructor).
  pose proof (timer_spec demo_engine morning_first 738000 738001 Hdates)
    as (_ & _ & _ & _ & Hnodup & _ & Hsorted).
  split_and!; [done|done|exact Hnodup|exact (Hsorted Htimes)].
Defined.

(** C1 as stated fails: with a trigger evaluated at 15:00 declared before one
    evaluated at 10:00, the timer of a single date is 15:00, 10:00, 23:00,
    which is not ascending. *)
Lemma timer_not_sorted :
  _timer demo_engine afternoon_first 738000 738000 =
    [combine 738000 fifteen; combine 738000 ten; combine 738000 (mk_time 23 0 0 0)]
  ∧ ¬ Sorted datetime_le (_timer demo_engine afternoon_first 738000 738000).
Proof.
  split; [reflexivity|].
  intros Hsorted. apply Sorted_inv in Hsorted as [_ Hhd].
  apply HdRel_inv in Hhd as [Heq | [Hlt | [_ Hlt]]].
  - discriminate Heq.
  - vm_compute in Hlt. discriminate Hlt.
  - vm_compute in Hlt. discriminate Hlt.
Qed.

(** *** Add-trade actions *)

Definition swap : Priceable :=
  {| priceable_name := "swap"; instrument_quantity := 100 |}.

Definition add_trade (duration : PyDuration) : Action :=
  {| action_type := AddTradeAction_class; _name := "Action1";
     priceables := [swap]; trade_duration := duration |}.

Example add_trade_five_days :
  apply_action (AddTradeActionImpl (Info := ()) (add_trade (DurTimedelta (days 5))))
    (combine 738000 ten) () None
  = Return [ {| instrument := swap; quantity := 100;
                generation_time := combine 738000 ten;
                execution_datetime := combine 738000 ten; source := "Action1" |};
             {| instrument := swap; quantity := -100;
                generation_time := combine 738000 ten;
                execution_datetime := combine 738005 ten; source := "Action1" |} ].
Proof. reflexivity. Qed.

(** C3 as stated fails: a holding duration of five business days, given as
    the tenor ["5b"], is set, and yet only the opening order is returned. *)
Lemma tenor_duration_one_order :
  trade_duration (add_trade (DurTenor "5b")) ≠ DurNone ∧
  apply_action (AddTradeActionImpl (Info := ()) (add_trade (DurTenor "5b")))
    (combine 738000 ten) () None
  = Return [ {| instrument := swap; quantity := 100;
                generation_time := combine 738000 ten;
                execution_datetime := combine 738000 ten; source := "Action1" |} ].
Proof. split; [discriminate|reflexivity]. Qed.

(** *** Unregistered action types *)

Definition ExitTradeAction_class : PyClass :=
  {| cls_name := "ExitTradeAction"; cls_bases := ["Action"; "object"] |}.

Definition exit_trade : Action :=
  {| action_type := ExitTradeAction_class; _name := "Action2";
     priceables := [swap]; trade_duration := DurNone |}.

(** A strategy whose only trigger carries an unregistered action and never
    fires, and one whose trigger always fires. *)
Definition dormant : Strategy () () :=
  {| triggers := [ {| get_trigger_times := [ten]; actions := [exit_trade];
                      has_triggered := never |} ] |}.




(** [reduce] has no initial value: on a strategy without triggers
    [supports_strategy] raises instead of answering. *)
Example supports_strategy_no_triggers :
  supports_strategy demo_engine {| triggers := [] |}
  = Raise (TypeError "reduce() of empty iterable with no initial value").
Proof. reflexivity. Qed.

(** *** A subclass of a registered action type *)

Definition TaggedAddTradeAction_class : PyClass :=
  {| cls_name := "TaggedAddTradeAction";
     cls_bases := ["AddTradeAction"; "Action"; "object"] |}.

Definition tagged_add_trade : Action :=
  {| action_type := TaggedAddTradeAction_class; _name := "Action3";
     priceables := [swap]; trade_duration := DurNone |}.

Definition tagged_strategy : Strategy () () :=
  {| triggers := [ at_times [ten] [add_trade DurNone; tagged_add_trade] ] |}.

Lemma exact_type_dispatch_witness :
  strict_subclass TaggedAddTradeAction_class AddTradeAction_class ∧
  get_action_handler demo_engine tagged_add_trade
    = Raise (unsupported TaggedAddTradeAction_class) ∧
  supports_strategy demo_engine tagged_strategy = Return false.
Proof.
  assert (strict_subclass TaggedAddTradeAction_class AddTradeAction_class) as Hsub.
  { split; [discriminate|]. cbn. left. }
  destruct (exact_type_dispatch demo_engine tagged_add_trade AddTradeAction_class)
    as [Hraise Hsupp]; [exact Hsub|by eexists|vm_compute; reflexivity|].
  split_and!; [exact Hsub|exact Hraise|].
  apply (Hsupp tagged_strategy (at_times [ten] [add_trade DurNone; tagged_add_trade])).
  - left.
  - right. left.
Defined.

End EngineProofs.

(** * Pricing contexts: specifications and proofs *)

Module ContextProofs.

Import Markets.

(** ** Inheritance and clean-up *)

Section ContextFacts.

Import PricingContext.

Variable today : date.
Variable future_tolerance : FutureTolerance.

(** The stack after entering the contexts of [cs], the last one first, so
    that the head of [cs] is the innermost. *)
Definition scope (cs : list Context) : list Context :=
  foldr (λ c stack, enter today stack c) [] cs.

(** The read rule of section 4.1 on the contexts as they were written: the
    value of the nearest context that sets the property, else the
    default. *)
Fixpoint nearest_explicit (cs : list Context) (P : Property) : option Value :=
  match cs with
  | [] => hard_coded_default today P
  | c :: cs =>
      match attrs c !! P with
      | Some v => Some v
      | None => nearest_explicit cs P
      end
  end.

Lemma identity_map_lookup (P : Property) : identity_map !! P = Some P.
Proof. destruct P; vm_compute; reflexivity. Qed.

Lemma lookup_enter (stack : list Context) (c : Context) (P : Property) :
  ∃ frame, enter today stack c = frame :: stack ∧
           attrs frame !! P = effective today stack c P ∧
           attrs_on_entry frame = Some (attrs c).
Proof.
  eexists. split; [reflexivity|]. split; [|done]. cbn [attrs].
  rewrite lookup_omap, identity_map_lookup. done.
Qed.

Lemma effective_explicit (stack : list Context) (c : Context) (P : Property) (v : Value) :
  attrs c !! P = Some v → effective today stack c P = Some v.
Proof.
  intros Hset. unfold effective, effective_own. destruct P; by rewrite Hset.
Qed.

Lemma effective_unset (stack : list Context) (c : Context) (P : Property) :
  P ≠ market →
  attrs c !! P = None →
  (P = market_data_location → attrs c !! market = None) →
  effective today stack c P = inherited today stack P.
Proof.
  intros Hm Hunset Hloc. unfold effective, effective_own.
  destruct P; try done; rewrite Hunset; try done.
  unfold own_market_location. by rewrite Hloc.
Qed.

Lemma inherited_enter (stack : list Context) (c : Context) (P : Property) :
  P ≠ market →
  (P = market_data_location → attrs c !! market = None) →
  inherited today (enter today stack c) P
  = match attrs c !! P with Some v => Some v | None => inherited today stack P end.
Proof.
  intros Hm Hloc.
  destruct (lookup_enter stack c P) as (frame & -> & Hframe & _).
  cbn [inherited]. rewrite Hframe.
  destruct (attrs c !! P) as [v|] eqn:Hset.
  - by rewrite (effective_explicit _ _ _ v).
  - rewrite effective_unset by done. by destruct (inherited today stack P).
Qed.

Lemma inherited_scope (cs : list Context) (P : Property) :
  P ≠ market →
  (P = market_data_location → Forall (λ c, attrs c !! market = None) cs) →
  inherited today (scope cs) P = nearest_explicit cs P.
Proof.
  intros Hm Hloc. induction cs as [|c cs IH]; [done|].
  cbn [scope foldr nearest_explicit]. rewrite inherited_enter.
  - fold (scope cs). rewrite IH; [done|].
    intros HP. specialize (Hloc HP). by apply Forall_inv_tail in Hloc.
  - done.
  - intros HP. specialize (Hloc HP). by apply Forall_inv in Hloc.
Qed.

Lemma exit_enter (stack : list Context) (c : Context) :
  exit (enter today stack c)
  = (Some {| attrs := attrs c; attrs_on_entry := None |}, stack).
Proof. reflexivity. Qed.

(** C7 (amended).  Let C1 set a property [P] other than the market, and let
    C2 not set it (for [market_data_location], C2 is given no market
    either).  Inside C2 nested in C1, [P] reads as C1's value and the
    properties C2 sets read as C2's; in general a property that the
    innermost context does not set reads as the value of the nearest
    enclosing context that sets it, else as the hard-coded default.  Leaving
    C2, however the block ends, pops exactly its frame: the stack is C1's
    scope again and C2 holds the values it had before, so [P] is unset on
    it.  The market is not inherited. *)
Theorem inheritance_and_cleanup (stack : list Context) (c1 c2 : Context)
    (P : Property) (v : Value) :
  P ≠ market →
  attrs c1 !! P = Some v →
  attrs c2 !! P = None →
  (P = market_data_location → attrs c2 !! market = None) →
  let scope1 := enter today stack c1 in
  let scope2 := enter today scope1 c2 in
  (∃ frame2, head scope2 = Some frame2 ∧
     attrs frame2 !! P = Some v ∧
     ∀ Q w, attrs c2 !! Q = Some w → attrs frame2 !! Q = Some w) ∧
  (∀ cs c Q,
     Q ≠ market → attrs c !! Q = None →
     (Q = market_data_location → Forall (λ c, attrs c !! market = None) (c :: cs)) →
     ∃ frame, head (scope (c :: cs)) = Some frame ∧
              attrs frame !! Q = nearest_explicit cs Q) ∧
  (∀ (X : Type) (body : list Context → X),
     with_context today scope1 c2 body
     = (body scope2, Some {| attrs := attrs c2; attrs_on_entry := None |}, scope1)) ∧
  attrs {| attrs := attrs c2; attrs_on_entry := None |} !! P = None.
Proof.
  intros Hm Hc1 Hc2 Hloc scope1 scope2. split_and!.
  - destruct (lookup_enter scope1 c2 P) as (frame2 & Hscope2 & HP & _).
    exists frame2. split_and!.
    + unfold scope2. by rewrite Hscope2.
    + rewrite HP, effective_unset by done.
      destruct (lookup_enter stack c1 P) as (frame1 & Hscope1 & HP1 & _).
      unfold scope1. rewrite Hscope1. cbn [inherited].
      by rewrite HP1, (effective_explicit _ _ _ v).
    + intros Q w HQ.
      destruct (lookup_enter scope1 c2 Q) as (frame2' & Hscope2' & HQ' & _).
      rewrite Hscope2 in Hscope2'. injection Hscope2' as <-.
      by rewrite HQ', (effective_explicit _ _ _ w).
  - intros cs c Q HQ Hunset HQloc.
    destruct (lookup_enter (scope cs) c Q) as (frame & Henter & Hframe & _).
    exists frame. split; [cbn [scope foldr]; fold (scope cs); by rewrite Henter|].
    rewrite Hframe, effective_unset, inherited_scope; try done.
    + intros HP. specialize (HQloc HP). by apply Forall_inv_tail in HQloc.
    + intros HP. specialize (HQloc HP). by apply Forall_inv in HQloc.
  - intros X body. unfold with_context. by rewrite exit_enter.
  - done.
Qed.

(** ** Validation at construction *)





(** C9.  A market whose location differs from the [market_data_location]
    given with it makes the constructor raise a [ValueError]: no context is
    returned.  Two active frames that differ in [market_data_location] make
    a calculation raise a [ValueError] instead of reaching the backend. *)
Theorem location_conflicts (kwargs : gmap Property Value)
    (m : CloseMarket) (l l' : PricingLocation) :
  kwargs !! market = Some (VMarket m) →
  location m = Some l →
  kwargs !! market_data_location = Some (VLocation l') →
  l ≠ l' →
  __init__ today future_tolerance kwargs
    = Raise (ValueError "market.location and market_data_location cannot be different") ∧
  (∀ (X : Type) (backend : Context → result X) (inner : list Context)
     (frame : Context) (between outer : list Context) (other : Context),
     attrs frame !! market_data_location ≠ attrs other !! market_data_location →
     ∃ msg, calc backend (inner ++ frame :: between ++ other :: outer)
            = Raise (ValueError msg)).
Proof.
  intros Hm Hl Hloc Hne. split.
  - unfold __init__. rewrite Hm, Hloc. destruct m as [md ml]. cbn in Hl. subst ml.
    by rewrite decide_False.
  - intros X backend inner frame between outer other Hdiff.
    eexists. unfold calc.
    destruct (inner ++ frame :: between ++ other :: outer) as [|current enclosing] eqn:Hstack.
    { by destruct inner. }
    rewrite bool_decide_eq_false_2; [done|]. intros Hall.
    rewrite Forall_forall in Hall.
    assert (∀ x, x ∈ inner ++ frame :: between ++ other :: outer →
              attrs x !! market_data_location = attrs current !! market_data_location)
      as Hsame.
    { intros x Hx. rewrite Hstack in Hx. apply elem_of_cons in Hx as [->|Hx]; auto. }
    apply Hdiff. rewrite (Hsame frame), (Hsame other); [done|..].
    + rewrite elem_of_app. right. right. rewrite elem_of_app. right. left.
    + rewrite elem_of_app. right. left.
Qed.

End ContextFacts.

(** ** The historical context *)

Section HistoricalFacts.

Import PricingContext HistoricalPricingContext.

Variable today : date.
Variable future_tolerance : FutureTolerance.
Variable date_range : DateOrInt → DateOrInt → list string → list date.
Variable close_market_date : option PricingLocation → date → date.
Context {Future B RiskMeasure : Type}.
Variable priceable_calc : RiskMeasure → list Context → B → Future * B.

Lemma lookup_kwarg (k k' : Property) (v : option Value) (kwargs : gmap Property Value) :
  kwarg k v kwargs !! k'
  = if decide (k = k') then
      match v with Some v => Some v | None => kwargs !! k' end
    else kwargs !! k'.
Proof.
  unfold kwarg. destruct v as [v|].
  - rewrite lookup_insert. by case_decide.
  - by case_decide.
Qed.

(** The keyword arguments [HistoricalPricingContext.__init__] passes on hold
    neither a pricing date nor a market, so the constructor of the base
    class accepts them. *)
Lemma super_init_ok (kwargs : gmap Property Value) :
  kwargs !! pricing_date = None → kwargs !! market = None →
  PricingContext.__init__ today future_tolerance kwargs
  = Return {| attrs := kwargs; attrs_on_entry := None |}.
Proof. intros Hd Hm. unfold PricingContext.__init__. by rewrite Hm, Hd. Qed.

(** C6.  [HistoricalPricingContext(start, .., dates)] with both [start] and
    [dates] raises [ValueError], and so does the call with neither; in both
    cases [__date_range] is left unset.  With [start] and no [end], the
    date range is [date_range(start, today, calendars)]; with [dates]
    alone it is [dates]. *)
Theorem historical_init_spec (start end_ : DateOrInt) (calendars : list string)
    (dates : list date) (is_async is_batch use_cache visible_to_gs : bool)
    (csa_term : option string) (market_data_location : option PricingLocation)
    (batch_results_timeout : option Z) :
  let init start end_ dates :=
    HistoricalPricingContext.__init__ today future_tolerance date_range
      start end_ calendars dates
      is_async is_batch use_cache visible_to_gs csa_term market_data_location
      batch_results_timeout in
  (∀ end_, snd (init (Some start) end_ (Some dates))
           = Some (ValueError "Must supply start or dates, not both") ∧
           __date_range (fst (init (Some start) end_ (Some dates))) = None) ∧
  (∀ end_, snd (init None end_ None) = Some (ValueError "Must supply start or dates") ∧
           __date_range (fst (init None end_ None)) = None) ∧
  (snd (init (Some start) None None) = None ∧
   __date_range (fst (init (Some start) None None))
   = Some (date_range start (ADate today) calendars)) ∧
  (snd (init (Some start) (Some end_) None) = None ∧
   __date_range (fst (init (Some start) (Some end_) None))
   = Some (date_range start end_ calendars)) ∧
  (∀ end_, snd (init None end_ (Some dates)) = None ∧
           __date_range (fst (init None end_ (Some dates))) = Some dates).
Proof.
  cbn zeta. unfold HistoricalPricingContext.__init__.
  rewrite super_init_ok.
  - split_and!; done.
  - rewrite !lookup_kwarg. repeat (rewrite decide_False by done). done.
  - rewrite !lookup_kwarg. repeat (rewrite decide_False by done). done.
Qed.



Definition dated (self : Context) (m : CloseMarket) (d : date) : Context :=
  {| attrs := dated_kwargs close_market_date self m d; attrs_on_entry := None |}.





End HistoricalFacts.

(** ** Examples

    Today is 2022-07-04 (ordinal 738340); 2022-04-06 is 738251, 2022-06-16
    is 738322 and 2022-07-01 is 738337. *)

Definition demo_today : date := 738340.

(** The least tolerance that the tests allow. *)
Lemma two_days_bounds : 2 ≤ 2 < 10.
Proof. lia. Qed.

Definition two_days : PricingContext.FutureTolerance :=
  {| PricingContext.tolerated_days := 2;
     PricingContext.tolerated_days_bounds := two_days_bounds |}.

Definition context_of (kwargs : list (Property * Value)) : Context :=
  {| attrs := list_to_map kwargs; attrs_on_entry := None |}.

(** [test_inheritance]: c1 sets the pricing date and the location, c2 only
    the pricing date. *)
Definition c1 : Context :=
  context_of [(pricing_date, VDate 738322); (market_data_location, VLocation NYC)].

Definition c2 : Context := context_of [(pricing_date, VDate 738337)].

Lemma inheritance_and_cleanup_witness :
  attrs c1 !! market_data_location = Some (VLocation NYC) ∧
  attrs c2 !! market_data_location = None ∧
  (∃ frame2,
     head (PricingContext.enter demo_today (PricingContext.enter demo_today [] c1) c2)
       = Some frame2 ∧
     attrs frame2 !! market_data_location = Some (VLocation NYC)) ∧
  PricingContext.exit
    (PricingContext.enter demo_today (PricingContext.enter demo_today [] c1) c2)
  = (Some c2, PricingContext.enter demo_today [] c1).
Proof.
  assert (attrs c1 !! market_data_location = Some (VLocation NYC)) as H1
    by (vm_compute; reflexivity).
  assert (attrs c2 !! market_data_location = None) as H2
    by (vm_compute; reflexivity).
  assert (market_data_location = market_data_location → attrs c2 !! market = None) as H3
    by (intros _; vm_compute; reflexivity).
  pose proof (inheritance_and_cleanup demo_today [] c1 c2 market_data_location
                (VLocation NYC) ltac:(discriminate) H1 H2 H3)
    as ((frame2 & Hhead & Hread & _) & _ & Hwith & _).
  split_and!; [exact H1|exact H2|by exists frame2|].
  specialize (Hwith unit (λ _, tt)). unfold PricingContext.with_context in Hwith.
  destruct (PricingContext.exit _) as [c' stack'].
  by injection Hwith as -> ->.
Defined.

(** [test_market_props]: the outer context is given a market (and a pricing
    date), the inner one nothing. *)
Definition with_market : Context :=
  context_of [(pricing_date, VDate 738340);
              (market, VMarket {| market_date := Some 738251; location := Some NYC |})].

Definition bare : Context := context_of [].

(** C7 as stated fails for the market: the outer context sets it, the inner
    one does not, and inside the inner scope the market reads as the close
    market of the inner context's own pricing date and location, not as the
    outer context's market. *)
Lemma market_not_inherited :
  attrs with_market !! market
    = Some (VMarket {| market_date := Some 738251; location := Some NYC |}) ∧
  attrs bare !! market = None ∧
  (head (PricingContext.enter demo_today
           (PricingContext.enter demo_today [] with_market) bare)
     ≫= λ frame, attrs frame !! market)
    = Some (VMarket {| market_date := Some 738340; location := Some NYC |}) ∧
  (head (PricingContext.enter demo_today
           (PricingContext.enter demo_today [] with_market) bare)
     ≫= λ frame, attrs frame !! market)
    ≠ attrs with_market !! market.
Proof. split_and!; vm_compute; (reflexivity || discriminate). Qed.






(** [test_market_props] and [test_location_mismatch] *)
Definition nyc_market_tko_location : gmap Property Value :=
  list_to_map
    [(market, VMarket {| market_date := Some 738251; location := Some NYC |});
     (pricing_date, VDate 738340);
     (market_data_location, VLocation TKO)].

Definition in_nyc : Context := context_of [(market_data_location, VLocation NYC)].
Definition in_tko : Context := context_of [(market_data_location, VLocation TKO)].

Lemma location_conflicts_witness :
  PricingContext.__init__ demo_today two_days nyc_market_tko_location
    = Raise (ValueError "market.location and market_data_location cannot be different") ∧
  ∃ msg,
    PricingContext.calc (λ c, Return (attrs c !! pricing_date))
      (PricingContext.enter demo_today (PricingContext.enter demo_today [] in_nyc) in_tko)
    = Raise (ValueError msg).
Proof.
  pose proof (location_conflicts demo_today two_days nyc_market_tko_location
                {| market_date := Some 738251; location := Some NYC |} NYC TKO
                ltac:(vm_compute; reflexivity) eq_refl ltac:(vm_compute; reflexivity)
                ltac:(discriminate)) as [Hinit Hcalc].
  split; [exact Hinit|].
  destruct (lookup_enter demo_today [] in_nyc market_data_location)
    as (outer & Houter & Hlo & _).
  destruct (lookup_enter demo_today [outer] in_tko market_data_location)
    as (inner & Hinner & Hli & _).
  rewrite Houter, Hinner.
  apply (Hcalc _ _ [] inner [] [] outer).
  rewrite Hlo, Hli. vm_compute. discriminate.
Defined.

(** [test_location_mismatch], second case: the outer context is given a
    market in NYC, the middle one nothing, the inner one a market in TKO. *)
Example location_mismatch_through_markets :
  PricingContext.calc (λ c, Return (attrs c !! pricing_date))
    (PricingContext.enter demo_today
       (PricingContext.enter demo_today
          (PricingContext.enter demo_today []
             (context_of [(market, VMarket {| market_date := Some 738251;
                                             location := Some NYC |})]))
          bare)
       (context_of [(market, VMarket {| market_date := Some 738251;
                                       location := Some TKO |})]))
  = Raise (ValueError "market_data_location mismatch between nested contexts").
Proof. vm_compute. reflexivity. Qed.

(** [test_cleanup]: inside the scope of c1 (pricing date 2022-04-06) the
    context [priority] reads c1's pricing date and its own request
    priority; after the block it has the priority only. *)
Definition priority : Context := context_of [(request_priority, VInt 5000)].

Example cleanup :
  let scope1 := PricingContext.enter demo_today []
                  (context_of [(pricing_date, VDate 738251)]) in
  let '(inside, after, stack) :=
    PricingContext.with_context demo_today scope1 priority
      (λ entered, head entered ≫= λ frame,
         Some (attrs frame !! pricing_date, attrs frame !! request_priority)) in
  inside = Some (Some (VDate 738251), Some (VInt 5000)) ∧
  (after ≫= λ c, attrs c !! request_priority) = Some (VInt 5000) ∧
  (after ≫= λ c, attrs c !! pricing_date) = None ∧
  stack = scope1.
Proof. vm_compute. done. Qed.

(** *** The historical context *)

Definition every_day (start end_ : DateOrInt) (calendars : list string) : list date :=
  match start, end_ with
  | ADate a, ADate b => seqZ a (b - a + 1)
  | _, _ => []
  end.





End ContextProofs.

(** * The backtest engine: further properties *)

Module EngineExtras.

Import Backtests EngineProofs.

Section Runs.

Context {W Fill Info : Type}.
Implicit Types (self : PredefinedAssetEngine W Fill Info) (strategy : Strategy W Info).
Implicit Types (s : RunState W Fill) (state : datetime).

(** *** Invariants of the loops *)

(** A property of the run state that every dispatch keeps, without raising,
    holds when the [while] loop ends, and the loop does not raise. *)
Lemma drain_invariant self strategy state (P : RunState W Fill → Prop) :
  (∀ event rest s, P s → events s = event :: rest →
     (dispatch self strategy state event (popleft state event rest s)).1 = Return () ∧
     P (dispatch self strategy state event (popleft state event rest s)).2) →
  ∀ fuel s r s', P s → drain fuel self strategy state s = Some (r, s') →
                 r = Return () ∧ P s'.
Proof.
  intros Hstep fuel. induction fuel as [|fuel IH]; intros s r s' HP Hrun; [done|].
  cbn [drain] in Hrun. destruct (events s) as [|event rest] eqn:Hevents.
  - injection Hrun as <- <-. done.
  - destruct (Hstep event rest s HP Hevents) as [Hret HP1].
    destruct (dispatch self strategy state event (popleft state event rest s))
      as [r1 s1]. cbn in Hret, HP1. subst r1. by eapply IH.
Qed.

Lemma run_loop_invariant self strategy (P : RunState W Fill → Prop) :
  (∀ state s, P s → P (begin_step self state s)) →
  (∀ state event rest s, P s → events s = event :: rest →
     (dispatch self strategy state event (popleft state event rest s)).1 = Return () ∧
     P (dispatch self strategy state event (popleft state event rest s)).2) →
  ∀ fuel (timer : list datetime) s r s',
    P s → run_loop fuel self strategy timer s = Some (r, s') →
    r = Return () ∧ P s'.
Proof.
  intros Hbegin Hstep fuel timer.
  induction timer as [|state timer IH]; intros s r s' HP Hrun; cbn [run_loop] in Hrun.
  - injection Hrun as <- <-. done.
  - destruct (drain fuel self strategy state (begin_step self state s))
      as [[r1 s1]|] eqn:Hdrain; [|done].
    destruct (drain_invariant self strategy state P (Hstep state) fuel _ _ _
                (Hbegin state s HP) Hdrain) as [-> HP1].
    by eapply IH.
Qed.

(** *** A supported strategy runs *)

(** The handler the engine builds for [action] returns its orders. *)
Definition handler_returns self (action : Action) : Prop :=
  ∀ impl state (w : W) info,
    action_impl_map self !! action_type action = Some impl →
    ∃ orders, apply_action (impl action) state w info = Return orders.

Lemma for_actions_returns self state trigger_info (acts : list Action) s :
  Forall (handler_returns self) acts → Forall (registered self) acts →
  (for_actions self state trigger_info acts s).1 = Return ().
Proof.
  intros Hret Hacts. revert s.
  induction Hacts as [|action acts [impl Himpl] _ IH]; intros s; cbn [for_actions]; [done|].
  unfold get_action_handler. rewrite Himpl.
  destruct (Forall_inv Hret impl state (world s)
              (info_dict trigger_info ≫= λ d, d !! action_type action) Himpl)
    as [orders ->].
  apply IH. by apply Forall_inv_tail in Hret.
Qed.

Lemma for_triggers_returns self state (trigs : list (Trigger W Info)) s :
  Forall (λ trigger, Forall (handler_returns self) (actions trigger)) trigs →
  Forall (λ trigger, Forall (registered self) (actions trigger)) trigs →
  (for_triggers self state trigs s).1 = Return ().
Proof.
  intros Hret Htrigs. revert s.
  induction Htrigs as [|trigger trigs Hacts _ IH]; intros s; cbn [for_triggers]; [done|].
  pose proof (Forall_inv_tail Hret) as Hret'.
  destruct (triggered _); [|by apply IH].
  pose proof (for_actions_returns self state (has_triggered trigger state (world s))
                (actions trigger) s (Forall_inv Hret) Hacts) as Hfor.
  destruct (for_actions self state _ (actions trigger) s) as [r1 s1].
  cbn in Hfor. subst r1. by apply IH.
Qed.

Lemma Forall_all_actions strategy (P : Action → Prop) :
  Forall P (all_actions strategy) →
  Forall (λ trigger, Forall P (actions trigger)) (triggers strategy).
Proof.
  intros Hall. apply Forall_forall. intros trigger Htrigger.
  apply Forall_forall. intros action Haction.
  rewrite Forall_forall in Hall. apply Hall.
  unfold all_actions. apply list_elem_of_bind. eauto.
Qed.

Lemma dispatch_returns self strategy state (event : Event Fill) s :
  Forall (handler_returns self) (all_actions strategy) →
  Forall (registered self) (all_actions strategy) →
  (dispatch self strategy state event s).1 = Return ().
Proof.
  intros Hret Hall. destruct event; cbn; try done.
  apply for_triggers_returns; by apply Forall_all_actions.
Qed.

Lemma supported_registered self strategy :
  supports_strategy self strategy = Return true →
  Forall (registered self) (all_actions strategy).
Proof.
  intros Hsupp. destruct (decide (triggers strategy = [])) as [Hnil|Hne].
  - unfold supports_strategy in Hsupp. by rewrite Hnil in Hsupp.
  - rewrite supports_strategy_decide in Hsupp by done.
    injection Hsupp as Hsupp. by apply bool_decide_eq_true in Hsupp.
Qed.

(** X1.  The pre-flight check is sound: when [supports_strategy] answers
    true and the handlers of the strategy's actions return their orders,
    [run_backtest] terminates without raising, whatever the range and the
    collaborators do. *)
Theorem supported_strategy_runs self strategy (start end_ : date) (w : W) :
  supports_strategy self strategy = Return true →
  Forall (handler_returns self) (all_actions strategy) →
  ∃ fuel0 s', ∀ fuel, (fuel0 ≤ fuel)%nat →
    run_backtest fuel self strategy start end_ w = Some (Return (), s').
Proof.
  intros Hsupp Hret. apply supported_registered in Hsupp.
  unfold run_backtest, _run.
  destruct (run_loop_spec self strategy (_timer self strategy start end_)
              {| world := init_backtest (collaborators self) start w;
                 events := []; enqueued := []; processed := [] |} eq_refl)
    as (fuel0 & r & s' & Hrun & _).
  exists fuel0, s'. intros fuel Hfuel. rewrite (Hrun fuel Hfuel).
  destruct (run_loop_invariant self strategy (λ _, True)
              ltac:(done)
              (λ state event rest s _ _,
                 conj (dispatch_returns self strategy state event _ Hret Hsupp) I)
              fuel _ _ r s' I (Hrun fuel Hfuel)) as [-> _].
  done.
Qed.

(** *** A strategy whose triggers never fire *)

Definition never_fires strategy : Prop :=
  ∀ trigger state (w : W),
    trigger ∈ triggers strategy → triggered (has_triggered trigger state w) = false.

Lemma for_triggers_quiet self state (trigs : list (Trigger W Info)) s :
  Forall (λ trigger, triggered (has_triggered trigger state (world s)) = false) trigs →
  for_triggers self state trigs s = (Return (), s).
Proof.
  induction 1 as [|trigger trigs Hquiet _ IH]; cbn [for_triggers]; [done|].
  by rewrite Hquiet.
Qed.

Lemma dispatch_quiet self strategy state (event : Event Fill) s :
  never_fires strategy →
  (dispatch self strategy state event s).1 = Return () ∧
  enqueued (dispatch self strategy state event s).2 = enqueued s.
Proof.
  intros Hnever. destruct event; cbn; try done.
  rewrite for_triggers_quiet; [done|].
  apply Forall_forall. intros trigger Htrigger. by apply Hnever.
Qed.

Definition no_order (entry : datetime * Event Fill) : Prop :=
  ∀ o, entry.2 ≠ OrderEvent o.

Lemma begin_step_no_order self state s :
  Forall no_order (enqueued s) → Forall no_order (enqueued (begin_step self state s)).
Proof.
  intros Hs. destruct (begin_step_opening self state s) as (_ & -> & _).
  apply Forall_app. split; [done|]. unfold opening_events.
  rewrite fmap_app. apply Forall_app. split.
  - apply Forall_fmap, Forall_fmap, Forall_forall. by intros f _ o.
  - case_bool_decide; repeat constructor; by intros o.
Qed.

(** X2.  Handlers are resolved only for triggers that fire: a strategy whose
    triggers never fire runs to the end without raising, whether or not the
    types of its actions are registered, and no order event is ever
    processed. *)
Theorem quiet_strategy_runs self strategy (start end_ : date) (w : W) :
  never_fires strategy →
  ∃ fuel0 s',
    (∀ fuel, (fuel0 ≤ fuel)%nat →
       run_backtest fuel self strategy start end_ w = Some (Return (), s')) ∧
    events s' = [] ∧
    ∀ state o, (state, OrderEvent o) ∉ processed s'.
Proof.
  intros Hnever. unfold run_backtest, _run.
  set (s0 := {| world := init_backtest (collaborators self) start w;
                events := []; enqueued := []; processed := [] |}).
  destruct (run_loop_spec self strategy (_timer self strategy start end_) s0 eq_refl)
    as (fuel0 & r & s' & Hrun & Hr).
  destruct (run_loop_invariant self strategy (λ s, Forall no_order (enqueued s))
              (begin_step_no_order self)
              (λ state event rest s HP _,
                 let H := dispatch_quiet self strategy state event
                            (popleft state event rest s) Hnever in
                 conj (proj1 H) (eq_ind_r (Forall no_order) HP (proj2 H)))
              fuel0 _ s0 r s' (Forall_nil_2 _) (Hrun fuel0 (le_n _)))
    as [-> Hno].
  exists fuel0, s'. split_and!; [done|apply Hr|].
  destruct Hr as (_ & blocks & _ & Hp & Hq). cbn in Hp, Hq.
  intros state o Hin. rewrite Hp, <- Hq in Hin.
  rewrite Forall_forall in Hno. by apply (Hno _ Hin o).
Qed.

(** *** How many market and valuation events a run processes *)

(** The number of processed events whose [type] is [type]. *)
Fixpoint count_type (type : string) (log : list (datetime * Event Fill)) : nat :=
  match log with
  | [] => 0
  | entry :: log =>
      ((if String.eqb (event_type entry.2) type then 1 else 0) + count_type type log)%nat
  end.

Lemma count_type_app (type : string) (log log' : list (datetime * Event Fill)) :
  count_type type (log ++ log') = (count_type type log + count_type type log')%nat.
Proof. induction log as [|entry log IH]; cbn [count_type app]; [done|]. lia. Qed.

Lemma count_type_fills (type : string) state (fills : list Fill) :
  type ≠ "Fill" →
  count_type type (pair state <$> (FillEvent <$> fills)) = 0%nat.
Proof.
  intros Hne. induction fills as [|f fills IH]; [done|].
  cbn [fmap list_fmap count_type]. rewrite IH. cbn [snd event_type].
  destruct (String.eqb_spec "Fill" type); [by subst|done].
Qed.

Lemma count_type_orders (type : string) state (orders : list OrderAtMarket) :
  type ≠ "Order" →
  count_type type (pair state <$> (OrderEvent (Fill := Fill) <$> orders)) = 0%nat.
Proof.
  intros Hne. induction orders as [|o orders IH]; [done|].
  cbn [fmap list_fmap count_type]. rewrite IH. cbn [snd event_type].
  destruct (String.eqb_spec "Order" type); [by subst|done].
Qed.

Definition at_eod self state : Prop := dt_time state = _eod_valuation_time self.

#[local] Instance at_eod_dec self state : Decision (at_eod self state).
Proof. unfold at_eod. apply _. Defined.

Lemma count_block self state (block : list (datetime * Event Fill)) :
  is_block self state block →
  count_type "Market" block = 1%nat ∧
  count_type "Valuation" block
  = (if decide (at_eod self state) then 1 else 0)%nat.
Proof.
  intros (fills & orders & ->). unfold step_events, opening_events, at_eod.
  rewrite !fmap_app, !count_type_app, !count_type_fills, !count_type_orders by done.
  case_bool_decide; case_decide; done.
Qed.

Lemma count_blocks self (timer : list datetime)
    (blocks : list (list (datetime * Event Fill))) :
  Forall2 (is_block self) timer blocks →
  count_type "Market" (concat blocks) = length timer ∧
  count_type "Valuation" (concat blocks) = length (filter (at_eod self) timer).
Proof.
  induction 1 as [|state block timer blocks Hblock _ [IHm IHv]]; [done|].
  destruct (count_block self state block Hblock) as [Hm Hv].
  cbn [concat]. rewrite !count_type_app, Hm, Hv, IHm, IHv. split; [done|].
  rewrite filter_cons. by case_decide.
Qed.

Lemma filter_none {A : Type} (P : A → Prop) `{∀ x, Decision (P x)} (l : list A) :
  Forall (λ x, ¬ P x) l → filter P l = [].
Proof.
  induction 1 as [|x l Hx _ IH]; [done|]. by rewrite filter_cons, decide_False.
Qed.

(** On one date the end-of-day time occurs exactly once among the times. *)
Lemma eod_once self strategy (d : date) :
  length (filter (at_eod self) (combine d <$> timer_times self strategy)) = 1%nat.
Proof.
  assert (NoDup (timer_times self strategy)) as Hnodup by apply NoDup_dict_fromkeys.
  assert (_eod_valuation_time self ∈ timer_times self strategy) as Hin
    by (apply elem_of_timer_times; auto).
  unfold at_eod.
  induction Hnodup as [|t times Hnot _ IH]; [by apply elem_of_nil in Hin|].
  rewrite fmap_cons, filter_cons. cbn [dt_time].
  destruct (decide (t = _eod_valuation_time self)) as [->|Hne].
  - cbn. f_equal.
    apply length_zero_iff_nil, filter_none, Forall_forall.
    intros x Hx Heod. apply list_elem_of_fmap in Hx as (t' & -> & Ht').
    cbn in Heod. by subst.
  - apply IH. apply elem_of_cons in Hin as [Hin|Hin]; [by subst|done].
Qed.

Lemma eod_per_date self strategy (dates : list date) :
  length (filter (at_eod self)
            (dates ≫= λ d, combine d <$> timer_times self strategy))
  = length dates.
Proof.
  induction dates as [|d dates IH]; [done|].
  rewrite bind_cons, filter_app, length_app, eod_once, IH. done.
Qed.

(** X3.  [run_backtest] terminates, and a run that returns has processed
    exactly one market event per timestamp of the timer and exactly one
    valuation event per date of the date range, whatever times of day the
    triggers declare. *)
Theorem one_valuation_per_date self strategy (start end_ : date) (w : W) :
  ∃ fuel0 r s',
    (∀ fuel, (fuel0 ≤ fuel)%nat →
       run_backtest fuel self strategy start end_ w = Some (r, s')) ∧
    (r = Return () →
       count_type "Market" (processed s') = length (_timer self strategy start end_) ∧
       count_type "Valuation" (processed s')
       = length (date_range (collaborators self) start end_ (calendars self))).
Proof.
  unfold run_backtest, _run.
  set (s0 := {| world := init_backtest (collaborators self) start w;
                events := []; enqueued := []; processed := [] |}).
  destruct (run_loop_spec self strategy (_timer self strategy start end_) s0 eq_refl)
    as (fuel0 & r & s' & Hrun & Hr).
  exists fuel0, r, s'. split; [done|]. intros ->.
  destruct Hr as (_ & blocks & Hblocks & Hp & _). cbn in Hp. rewrite Hp.
  destruct (count_blocks self _ blocks Hblocks) as [Hm Hv].
  split; [done|]. rewrite Hv, _timer_unfold. apply eod_per_date.
Qed.

(** *** The registry only grows what is supported *)

(** X4.  Registering further action types never withdraws support: a
    strategy that [supports_strategy] accepts is accepted by every engine
    whose [action_impl_map] has at least the same keys. *)
Theorem supports_strategy_monotone self (self' : PredefinedAssetEngine W Fill Info)
    strategy :
  (∀ c, is_Some (action_impl_map self !! c) → is_Some (action_impl_map self' !! c)) →
  supports_strategy self strategy = Return true →
  supports_strategy self' strategy = Return true.
Proof.
  intros Hsub Hsupp.
  assert (triggers strategy ≠ []) as Hne.
  { intros Hnil. unfold supports_strategy in Hsupp. by rewrite Hnil in Hsupp. }
  apply supported_registered in Hsupp.
  rewrite supports_strategy_decide by done. f_equal. apply bool_decide_eq_true.
  eapply Forall_impl; [exact Hsupp|]. intros action. apply Hsub.
Qed.

(** *** The orders of an add-trade action *)

Definition net_quantity (orders : list OrderAtMarket) : Z :=
  foldr (λ o total, quantity o + total) 0 orders.

Lemma net_quantity_app (orders orders' : list OrderAtMarket) :
  net_quantity (orders ++ orders') = net_quantity orders + net_quantity orders'.
Proof.
  unfold net_quantity. induction orders as [|o orders IH]; cbn [foldr app]; lia.
Qed.

(** X5.  Whatever [apply_action] of the add-trade handler returns, every
    order is generated at [state], carries the action's name as source and
    is for one of the action's priceables.  With a [dt.timedelta] duration
    there are two orders per priceable and their quantities cancel: the
    action is flat once its closing orders are executed.  Otherwise there
    is one order per priceable, executed at [state], and the quantities add
    up to the priceables' quantities. *)
Theorem add_trade_orders (action : Action) (state : datetime) (backtest : W)
    (info : option Info) (orders : list OrderAtMarket) :
  apply_action (AddTradeActionImpl action) state backtest info = Return orders →
  Forall (λ o, generation_time o = state ∧ source o = _name action ∧
               instrument o ∈ priceables action) orders ∧
  match trade_duration action with
  | DurTimedelta td =>
      length orders = (2 * length (priceables action))%nat ∧
      net_quantity orders = 0
  | _ =>
      length orders = length (priceables action) ∧
      Forall (λ o, execution_datetime o = state) orders ∧
      net_quantity orders
      = foldr (λ p total, instrument_quantity p + total) 0 (priceables action)
  end.
Proof.
  cbn [apply_action AddTradeActionImpl]. unfold generate_orders. intros Hgen.
  destruct (trade_duration action) as [|td|tenor|d] eqn:Hdur.
  2:{ destruct (datetime_add state td) as [execution|e] eqn:Hadd.
      - rewrite (generate_orders_loop_close _ _ execution td) in Hgen by done.
        cbn [app] in Hgen. injection Hgen as <-.
        induction (priceables action) as [|p ps IH]; [by split_and!|].
        destruct IH as (Hall & Hlen & Hnet).
        rewrite bind_cons. split_and!.
        + repeat constructor.
          eapply Forall_impl; [exact Hall|]. intros o (? & ? & ?).
          split_and!; [done|done|by right].
        + cbn [length app]. rewrite Hlen. lia.
        + rewrite net_quantity_app, Hnet. cbn. lia.
      - destruct (priceables action) as [|p ps]; [by injection Hgen as <-|].
        by rewrite (generate_orders_loop_overflow _ _ td e) in Hgen. }
  all: rewrite generate_orders_loop_open in Hgen by (intros td; by rewrite Hdur).
  all: cbn [app] in Hgen; injection Hgen as <-.
  all: induction (priceables action) as [|p ps IH]; [by split_and!|].
  all: destruct IH as (Hall & Hlen & Hexec & Hnet).
  all: rewrite fmap_cons; split_and!;
    [ constructor; [split_and!; [done|done|left]|];
      eapply Forall_impl; [exact Hall|]; intros o (? & ? & ?);
      split_and!; [done|done|by right]
    | cbn [length]; by rewrite Hlen
    | by constructor
    | unfold net_quantity in *; cbn [foldr]; cbn [quantity opening_order];
      by rewrite Hnet ].
Qed.

End Runs.

(** *** Examples *)

(** A strategy that adds a trade every day at 10:00, with no holding
    period. *)
Definition daily : Strategy () () :=
  {| triggers := [at_times [ten] [add_trade DurNone]] |}.

Lemma daily_handlers_return :
  Forall (handler_returns demo_engine) (all_actions daily).
Proof.
  change (all_actions daily) with [add_trade DurNone].
  apply List.Forall_cons; [|apply List.Forall_nil].
  intros impl state w info Himpl.
  assert (impl = AddTradeActionImpl) as ->.
  { unfold demo_engine in Himpl. cbn [action_impl_map add_trade action_type] in Himpl.
    rewrite lookup_singleton_eq in Himpl. by injection Himpl as <-. }
  by exists [opening_order (add_trade DurNone) state swap].
Defined.

Lemma supported_strategy_runs_witness :
  supports_strategy demo_engine daily = Return true ∧
  ∃ fuel0 s', ∀ fuel, (fuel0 ≤ fuel)%nat →
    run_backtest fuel demo_engine daily 738000 738001 () = Some (Return (), s').
Proof.
  assert (supports_strategy demo_engine daily = Return true) as Hsupp
    by (vm_compute; reflexivity).
  split; [exact Hsupp|].
  exact (supported_strategy_runs demo_engine daily 738000 738001 ()
           Hsupp daily_handlers_return).
Defined.

Lemma quiet_strategy_runs_witness :
  supports_strategy demo_engine dormant = Return false ∧
  ∃ fuel0 s',
    (∀ fuel, (fuel0 ≤ fuel)%nat →
       run_backtest fuel demo_engine dormant 738000 738001 () = Some (Return (), s')) ∧
    events s' = [] ∧
    ∀ state o, (state, OrderEvent o) ∉ processed s'.
Proof.
  split; [vm_compute; reflexivity|].
  apply (quiet_strategy_runs demo_engine dormant 738000 738001 ()).
  intros trigger state w Htrigger.
  apply list_elem_of_singleton in Htrigger. by subst.
Defined.

Lemma supports_strategy_monotone_witness :
  supports_strategy demo_engine daily = Return true ∧
  supports_strategy
    {| action_impl_map := <[ ExitTradeAction_class := AddTradeActionImpl ]>
                            (action_impl_map demo_engine);
       calendars := calendars demo_engine;
       valuation_method := valuation_method demo_engine;
       collaborators := collaborators demo_engine |} daily = Return true.
Proof.
  assert (supports_strategy demo_engine daily = Return true) as Hsupp
    by (vm_compute; reflexivity).
  split; [exact Hsupp|].
  apply (supports_strategy_monotone demo_engine); [|exact Hsupp].
  intros c [impl Himpl]. cbn [action_impl_map].
  destruct (decide (ExitTradeAction_class = c)) as [<-|Hne].
  - rewrite lookup_insert_eq. by eexists.
  - rewrite lookup_insert_ne by done. by eexists.
Defined.

Lemma add_trade_orders_witness :
  ∃ orders,
    apply_action (AddTradeActionImpl (Info := ()) (add_trade (DurTimedelta (days 5))))
      (combine 738000 ten) () None = Return orders ∧
    length orders = 2%nat ∧ net_quantity orders = 0.
Proof.
  eexists. split; [reflexivity|].
  pose proof (add_trade_orders (W := ()) (Info := ())
                (add_trade (DurTimedelta (days 5)))
                (combine 738000 ten) () None _ eq_refl) as (_ & Hlen & Hnet).
  exact (conj Hlen Hnet).
Defined.

End EngineExtras.

(** * Portfolios: specifications and proofs *)

Module PortfolioProofs.

Import Portfolios.

Section Trees.

Context {I : Type}.
Implicit Types (p q self : PriceableImpl I) (ps : list (PriceableImpl I)).
Implicit Types (path : PortfolioPath).

(** Induction on a priceable with the hypothesis for every priceable of a
    portfolio. *)
Lemma PriceableImpl_induction (P : PriceableImpl I → Prop) :
  (∀ name data, P (Instrument name data)) →
  (∀ name id ps, Forall P ps → P (Portfolio name id ps)) →
  ∀ p, P p.
Proof.
  intros Hinstrument Hportfolio.
  fix IH 1. intros [name data|name id ps]; [apply Hinstrument|].
  apply Hportfolio. induction ps as [|q ps IHps]; constructor; [apply IH|apply IHps].
Qed.

(** The priceable that the indices of [path] lead to, by [self[i]] at each
    step. *)
Fixpoint at_path self path : option (PriceableImpl I) :=
  match path with
  | [] => Some self
  | i :: path =>
      match priceables self !! i with
      | Some q => at_path q path
      | None => None
      end
  end.

(** ** The name index *)

(** The positions from [idx] on at which [ps] holds a true priceable named
    [n]. *)
Fixpoint positions (idx : nat) ps (n : string) : list nat :=
  match ps with
  | [] => []
  | i :: ps =>
      (if decide ((if truthy i then named i else None) = Some n) then [idx] else [])
      ++ positions (S idx) ps n
  end.

Lemma index_names_lookup ps : ∀ (idx : nat) (by_name : gmap string (list nat)) (n : string),
  index_names idx ps by_name !! n
  = match positions idx ps n with
    | [] => by_name !! n
    | new => Some (default [] (by_name !! n) ++ new)
    end.
Proof.
  induction ps as [|i ps IH]; intros idx by_name n; cbn [index_names positions]; [done|].
  rewrite IH. destruct (if truthy i then named i else None) as [n'|] eqn:Hi.
  - destruct (decide (n' = n)) as [->|Hne].
    + rewrite decide_True by done. rewrite lookup_insert_eq. cbn [default app].
      destruct (positions (S idx) ps n); [done|]. unfold id. by rewrite <- app_assoc.
    + rewrite decide_False by congruence. rewrite lookup_insert_ne by done. done.
  - rewrite decide_False by done. done.
Qed.

Lemma elem_of_positions ps : ∀ (idx i : nat) (n : string),
  i ∈ positions idx ps n ↔
  (idx ≤ i)%nat ∧ ∃ p, ps !! (i - idx)%nat = Some p ∧ truthy p = true ∧ named p = Some n.
Proof.
  induction ps as [|q ps IH]; intros idx i n; cbn [positions].
  - split; [by intros ?%elem_of_nil|]. by intros (_ & p & ? & _).
  - rewrite elem_of_app, IH. split.
    + intros [Hhere|(Hle & p & Hp & Htruthy & Hnamed)].
      * case_decide as Hq; [|by apply elem_of_nil in Hhere].
        apply list_elem_of_singleton in Hhere as ->. split; [lia|].
        exists q. rewrite Nat.sub_diag. destruct (truthy q); [done|discriminate].
      * split; [lia|]. exists p. split_and!; [|done|done].
        replace (i - idx)%nat with (S (i - S idx)) by lia. done.
    + intros (Hle & p & Hp & Htruthy & Hnamed).
      destruct (decide (i = idx)) as [->|Hne].
      * left. rewrite Nat.sub_diag in Hp. injection Hp as ->.
        rewrite Htruthy, decide_True by done. left.
      * right. split; [lia|]. exists p. split_and!; [|done|done].
        replace (i - idx)%nat with (S (i - S idx)) in Hp by lia. done.
Qed.

Lemma positions_sorted ps : ∀ (idx : nat) (n : string),
  StronglySorted lt (positions idx ps n).
Proof.
  induction ps as [|q ps IH]; intros idx n; cbn [positions]; [constructor|].
  case_decide; [|apply IH]. constructor; [apply IH|].
  apply Forall_forall. intros i Hi. apply elem_of_positions in Hi as [Hle _]. lia.
Qed.

(** X6.  The name index that the setter of [priceables] builds is exact.
    Under a name it lists, in ascending order and without repetition, the
    positions of the priceables that are true and bear that non-empty name,
    and it has no entry for any other name.  A sub-portfolio that is empty
    is false and is therefore not listed under its name. *)
Theorem name_index_exact (name id : option string) ps (n : string) :
  let self := Portfolio name id ps in
  let listed := default [] (__priceables_by_name self !! n) in
  (∀ i, i ∈ listed ↔ ∃ p, ps !! i = Some p ∧ truthy p = true ∧ named p = Some n) ∧
  StronglySorted lt listed ∧
  (__priceables_by_name self !! n = None ↔ listed = []) ∧
  (∀ i name' id', ps !! i = Some (Portfolio name' id' []) → i ∉ listed).
Proof.
  cbn zeta. unfold __priceables_by_name. cbn [priceables].
  rewrite index_names_lookup, lookup_empty. cbn [default app].
  assert (default [] (match positions 0 ps n with
                      | [] => None
                      | new => Some new
                      end) = positions 0 ps n) as ->
    by (by destruct (positions 0 ps n)).
  assert (∀ i, i ∈ positions 0 ps n ↔
               ∃ p, ps !! i = Some p ∧ truthy p = true ∧ named p = Some n) as Hin.
  { intros i. rewrite elem_of_positions, Nat.sub_0_r. split; [by intros [_ ?]|].
    intros ?. split; [lia|done]. }
  split_and!.
  - exact Hin.
  - apply positions_sorted.
  - by destruct (positions 0 ps n).
  - intros i name' id' Hi Hlisted. apply Hin in Hlisted as (p & Hp & Htruthy & _).
    rewrite Hi in Hp. injection Hp as <-. done.
Qed.

(** ** Paths by name *)

(** The loop of [paths] over the sub-portfolios, from position [i] on. *)
Fixpoint sub_paths (key : string) (i : nat) ps : list PortfolioPath :=
  match ps with
  | [] => []
  | p :: ps =>
      (if is_portfolio p then (λ sub_path, i :: sub_path) <$> paths p key else [])
      ++ sub_paths key (S i) ps
  end.

Definition own_paths (key : string) ps : list PortfolioPath :=
  (λ i, [i]) <$> positions 0 ps key.

Lemma paths_unfold (name id : option string) ps (key : string) :
  paths (Portfolio name id ps) key = own_paths key ps ++ sub_paths key 0 ps.
Proof.
  cbn [paths]. f_equal.
  - unfold own_paths. rewrite index_names_lookup, lookup_empty.
    by destruct (positions 0 ps key).
  - generalize 0%nat. induction ps as [|p ps IH]; intros i; [done|].
    cbn [sub_paths]. by rewrite <- IH.
Qed.

Lemma elem_of_sub_paths (key : string) ps : ∀ (i : nat) path,
  path ∈ sub_paths key i ps ↔
  ∃ j q sub_path, ps !! j = Some q ∧ is_portfolio q = true ∧
                  sub_path ∈ paths q key ∧ path = (i + j)%nat :: sub_path.
Proof.
  induction ps as [|p ps IH]; intros i path; cbn [sub_paths].
  - split; [by intros ?%elem_of_nil|]. by intros (j & q & sub_path & ? & _).
  - rewrite elem_of_app, IH. split.
    + intros [Hhere|(j & q & sub_path & Hq & Hport & Hsub & ->)].
      * destruct (is_portfolio p) eqn:Hport; [|by apply elem_of_nil in Hhere].
        apply list_elem_of_fmap in Hhere as (sub_path & -> & Hsub).
        exists 0%nat, p, sub_path. by rewrite Nat.add_0_r.
      * exists (S j), q, sub_path. split_and!; [done..|]. f_equal. lia.
    + intros (j & q & sub_path & Hq & Hport & Hsub & ->).
      destruct j as [|j].
      * left. injection Hq as ->. rewrite Hport, Nat.add_0_r.
        by apply list_elem_of_fmap_2.
      * right. exists j, q, sub_path. split_and!; [done..|]. f_equal. lia.
Qed.

Lemma at_path_instrument (name : option string) (data : I) (i : nat) path :
  at_path (Instrument name data) (i :: path) = None.
Proof. done. Qed.

(** The priceable at [path] is true and bears the name [key]. *)
Definition named_at self (key : string) path : Prop :=
  path ≠ [] ∧ ∃ p, at_path self path = Some p ∧ truthy p = true ∧ named p = Some key.

Lemma paths_exact self : ∀ (key : string) path,
  path ∈ paths self key ↔ named_at self key path.
Proof.
  induction self as [name data|name id ps IH] using PriceableImpl_induction;
    intros key path.
  - split; [by intros ?%elem_of_nil|]. intros [Hne (p & Hp & _)].
    destruct path; [done|]. by rewrite at_path_instrument in Hp.
  - rewrite paths_unfold, elem_of_app, elem_of_sub_paths. unfold own_paths.
    rewrite list_elem_of_fmap. setoid_rewrite elem_of_positions.
    rewrite Forall_forall in IH. split.
    + intros [(i & -> & _ & p & Hp & Htruthy & Hnamed)
             |(j & q & sub_path & Hq & Hport & Hsub & ->)].
      * split; [done|]. exists p. cbn [at_path priceables].
        rewrite Nat.sub_0_r in Hp. by rewrite Hp.
      * apply IH in Hsub as [Hne (p & Hp & Htruthy & Hnamed)];
          [|by eapply list_elem_of_lookup_2].
        split; [done|]. exists p. cbn [at_path priceables Nat.add]. by rewrite Hq.
    + intros [Hne (p & Hp & Htruthy & Hnamed)].
      destruct path as [|i [|k rest]]; [done| |]; cbn [at_path priceables] in Hp.
      * left. exists i. split; [done|]. split; [lia|].
        exists p. rewrite Nat.sub_0_r.
        destruct (ps !! i) as [q|] eqn:Hq; [|done]. by injection Hp as ->.
      * right. destruct (ps !! i) as [q|] eqn:Hq; [|done].
        exists i, q, (k :: rest). split_and!; [done| | |done].
        -- destruct q; [done|done].
        -- apply IH; [by eapply list_elem_of_lookup_2|].
           split; [done|]. by exists p.
Qed.

Lemma sub_paths_head (key : string) ps (i : nat) path :
  path ∈ sub_paths key i ps → ∃ j sub_path, path = j :: sub_path ∧ (i ≤ j)%nat.
Proof.
  intros (j & q & sub_path & _ & _ & _ & ->)%elem_of_sub_paths.
  exists (i + j)%nat, sub_path. split; [done|lia].
Qed.

Lemma paths_long self (key : string) path :
  path ∈ paths self key → path ≠ [].
Proof. intros Hin. by apply paths_exact in Hin as [? _]. Qed.

Lemma paths_NoDup self : ∀ (key : string), NoDup (paths self key).
Proof.
  induction self as [name data|name id ps IH] using PriceableImpl_induction;
    intros key; [constructor|].
  rewrite paths_unfold. apply NoDup_app. split_and!.
  - unfold own_paths. apply NoDup_fmap_2_strong.
    + by intros i j _ _ [= ->].
    + clear. generalize 0%nat. intros idx.
      pose proof (positions_sorted ps idx key) as Hsorted.
      induction Hsorted as [|i l _ IHl Hall]; constructor; [|done].
      intros Hin. rewrite Forall_forall in Hall. specialize (Hall i Hin). lia.
  - intros path (i & -> & _)%list_elem_of_fmap
      (j & q & sub_path & _ & _ & Hsub & [= _ <-])%elem_of_sub_paths.
    by apply paths_long in Hsub.
  - generalize 0%nat. induction IH as [|p ps Hp _ IHps]; intros i; [constructor|].
    cbn [sub_paths]. apply NoDup_app. split_and!.
    + destruct (is_portfolio p); [|constructor].
      apply NoDup_fmap_2_strong; [by intros ? ? _ _ [= ->]|apply Hp].
    + intros path Hhere Hlater.
      apply sub_paths_head in Hlater as (j & sub_path & -> & Hle).
      destruct (is_portfolio p); [|by apply elem_of_nil in Hhere].
      apply list_elem_of_fmap in Hhere as (sub_path' & [= -> _] & _). lia.
    + apply IHps.
Qed.

(** X7.  [paths(name)] reports exactly the positions, at any depth, of the
    priceables that are true and bear that name: following the indices of a
    reported path from the portfolio, by indexing, reaches such a priceable,
    every such position is reported, and none is reported twice. *)
Theorem paths_by_name (name id : option string) ps (key : string) :
  let self := Portfolio name id ps in
  (∀ path, path ∈ paths self key ↔
     path ≠ [] ∧ ∃ p, at_path self path = Some p ∧ truthy p = true ∧
                      named p = Some key) ∧
  NoDup (paths self key).
Proof. split; [intros path; apply paths_exact|apply paths_NoDup]. Qed.

(** ** All paths *)

(** The paths from [p] to the priceables below it that are not portfolios;
    [leaves_from i ps] are those that start in [ps], whose first priceable
    has position [i]. *)
Fixpoint leaves p : list PortfolioPath :=
  match p with
  | Instrument _ _ => [[]]
  | Portfolio _ _ ps =>
      (fix leaves_from (i : nat) (ps : list (PriceableImpl I)) : list PortfolioPath :=
         match ps with
         | [] => []
         | q :: ps => ((λ sub_path, i :: sub_path) <$> leaves q) ++ leaves_from (S i) ps
         end) 0%nat ps
  end.

Fixpoint leaves_from (i : nat) ps : list PortfolioPath :=
  match ps with
  | [] => []
  | q :: ps => ((λ sub_path, i :: sub_path) <$> leaves q) ++ leaves_from (S i) ps
  end.

Lemma leaves_unfold (name id : option string) ps :
  leaves (Portfolio name id ps) = leaves_from 0 ps.
Proof.
  cbn [leaves]. generalize 0%nat. induction ps as [|q ps IH]; intros i; [done|].
  by rewrite IH.
Qed.

Lemma elem_of_leaves_from ps : ∀ (i : nat) path,
  path ∈ leaves_from i ps ↔
  ∃ j q sub_path, ps !! j = Some q ∧ sub_path ∈ leaves q ∧ path = (i + j)%nat :: sub_path.
Proof.
  induction ps as [|p ps IH]; intros i path; cbn [leaves_from].
  - split; [by intros ?%elem_of_nil|]. by intros (j & q & sub_path & ? & _).
  - rewrite elem_of_app, IH, list_elem_of_fmap. split.
    + intros [(sub_path & -> & Hsub)|(j & q & sub_path & Hq & Hsub & ->)].
      * exists 0%nat, p, sub_path. by rewrite Nat.add_0_r.
      * exists (S j), q, sub_path. split_and!; [done..|]. f_equal. lia.
    + intros (j & q & sub_path & Hq & Hsub & ->). destruct j as [|j].
      * left. injection Hq as ->. exists sub_path. by rewrite Nat.add_0_r.
      * right. exists j, q, sub_path. split_and!; [done..|]. f_equal. lia.
Qed.

Lemma elem_of_leaves p : ∀ path,
  path ∈ leaves p ↔ ∃ name data, at_path p path = Some (Instrument name data).
Proof.
  induction p as [name data|name id ps IH] using PriceableImpl_induction; intros path.
  - cbn [leaves]. rewrite list_elem_of_singleton. split.
    + intros ->. by exists name, data.
    + intros (name' & data' & Hat). destruct path; [done|].
      by rewrite at_path_instrument in Hat.
  - rewrite leaves_unfold, elem_of_leaves_from. rewrite Forall_forall in IH. split.
    + intros (j & q & sub_path & Hq & Hsub & ->).
      apply IH in Hsub; [|by eapply list_elem_of_lookup_2].
      cbn [at_path priceables Nat.add]. by rewrite Hq.
    + intros (name' & data' & Hat). destruct path as [|j sub_path]; [done|].
      cbn [at_path priceables] in Hat. destruct (ps !! j) as [q|] eqn:Hq; [|done].
      exists j, q, sub_path. split_and!; [done| |done].
      apply IH; [by eapply list_elem_of_lookup_2|]. by exists name', data'.
Qed.

Lemma leaves_NoDup p : NoDup (leaves p).
Proof.
  induction p as [name data|name id ps IH] using PriceableImpl_induction.
  - cbn [leaves]. apply NoDup_singleton.
  - rewrite leaves_unfold. generalize 0%nat.
    induction IH as [|q ps Hq _ IHps]; intros i; [constructor|].
    cbn [leaves_from]. apply NoDup_app. split_and!.
    + apply NoDup_fmap_2_strong; [by intros ? ? _ _ [= ->]|done].
    + intros path (sub_path & -> & _)%list_elem_of_fmap
        (j & q' & sub_path' & _ & _ & [= Hj _])%elem_of_leaves_from. lia.
    + apply IHps.
Qed.

(** What a stack entry of [all_paths] stands for: the paths that the loop
    will still report for it. *)
Definition prefix (parent : option PortfolioPath) : PortfolioPath := default [] parent.

Definition pending (entry : option PortfolioPath * PriceableImpl I) : list PortfolioPath :=
  (λ sub_path, prefix entry.1 ++ sub_path) <$> leaves_from 0 (priceables entry.2).

(** The number of priceables in a tree. *)
Fixpoint size p : nat :=
  match p with
  | Instrument _ _ => 1
  | Portfolio _ _ ps => S (sum_list_with size ps)
  end.

Lemma size_priceables p : size p = S (sum_list_with size (priceables p)).
Proof. by destruct p. Qed.

Definition stack_size (stack : list (option PortfolioPath * PriceableImpl I)) : nat :=
  sum_list_with (λ entry, size entry.2) stack.

(** One pass of the [for] loop keeps the paths that are reported or pending,
    up to their order, and pushes no more than it was given. *)
Lemma visit_spec ps : ∀ (parent : option PortfolioPath) (idx : nat) stack result,
  ∃ pushed new,
    visit parent idx ps stack result = (pushed ++ stack, result ++ new) ∧
    new ++ concat (pending <$> pushed)
      ≡ₚ (λ sub_path, prefix parent ++ sub_path) <$> leaves_from idx ps ∧
    (stack_size pushed ≤ sum_list_with size ps)%nat.
Proof.
  induction ps as [|q ps IH]; intros parent idx stack result; cbn [visit].
  - exists [], []. by rewrite app_nil_r.
  - assert ((match parent with
             | Some parent => parent ++ [idx]
             | None => [idx]
             end) = prefix parent ++ [idx]) as -> by (by destruct parent).
    destruct q as [name data|name id qs]; cbn [is_portfolio].
    + destruct (IH parent (S idx) stack (result ++ [prefix parent ++ [idx]]))
        as (pushed & new & -> & Hperm & Hsize).
      exists pushed, ((prefix parent ++ [idx]) :: new). split_and!.
      * by rewrite <- app_assoc.
      * cbn [leaves_from leaves fmap list_fmap app]. by rewrite <- Hperm.
      * cbn [sum_list_with size]. lia.
    + destruct (IH parent (S idx) ((Some (prefix parent ++ [idx]), Portfolio name id qs) :: stack)
                   result) as (pushed & new & -> & Hperm & Hsize).
      exists (pushed ++ [(Some (prefix parent ++ [idx]), Portfolio name id qs)]), new.
      split_and!.
      * by rewrite <- app_assoc.
      * rewrite fmap_app, concat_app, app_assoc, Hperm.
        cbn [leaves_from]. rewrite fmap_app, leaves_unfold. cbn [fmap list_fmap concat].
        rewrite app_nil_r, Permutation_app_comm. apply Permutation_app; [|done].
        unfold pending. cbn [fst snd prefix default priceables].
        rewrite <- list_fmap_compose. apply reflexive_eq, list_fmap_ext.
        intros _ sub_path _. cbn. by rewrite <- app_assoc.
      * unfold stack_size in *. rewrite sum_list_with_app.
        cbn [sum_list_with snd size]. lia.
Qed.

Lemma all_paths_loop_spec : ∀ (fuel : nat) stack result,
  (stack_size stack < fuel)%nat →
  ∃ paths, all_paths_loop fuel stack result = Some paths ∧
           paths ≡ₚ result ++ concat (pending <$> stack).
Proof.
  induction fuel as [|fuel IH]; intros stack result Hfuel; [lia|].
  cbn [all_paths_loop]. destruct stack as [|[parent portfolio] stack].
  - exists result. by rewrite app_nil_r.
  - destruct (visit_spec (priceables portfolio) parent 0 stack result)
      as (pushed & new & -> & Hperm & Hsize).
    unfold stack_size in *. cbn [sum_list_with snd] in Hfuel.
    rewrite size_priceables in Hfuel.
    destruct (IH (pushed ++ stack) (result ++ new)) as (paths & -> & Hpaths).
    { rewrite sum_list_with_app. lia. }
    exists paths. split; [done|]. rewrite Hpaths.
    rewrite fmap_app, concat_app. cbn [fmap list_fmap concat].
    rewrite <- Hperm. rewrite <- !app_assoc. done.
Qed.

(** Fuel that is left over does not change the result. *)
Lemma all_paths_loop_fuel :
  ∀ (fuel fuel' : nat) (stack : list (option PortfolioPath * PriceableImpl I)) result paths,
  all_paths_loop fuel stack result = Some paths →
  (fuel ≤ fuel')%nat →
  all_paths_loop fuel' stack result = Some paths.
Proof.
  induction fuel as [|fuel IH]; intros fuel' stack result paths Hrun Hfuel; [done|].
  destruct fuel' as [|fuel']; [lia|]. cbn [all_paths_loop] in *.
  destruct stack as [|[parent portfolio] stack]; [done|].
  destruct (visit parent 0 (priceables portfolio) stack result).
  apply (IH fuel'); [done|lia].
Qed.

Lemma all_paths_leaves self :
  ∃ paths,
    (∀ fuel, (S (size self) ≤ fuel)%nat → all_paths fuel self = Some paths) ∧
    paths ≡ₚ leaves_from 0 (priceables self).
Proof.
  destruct (all_paths_loop_spec (S (size self)) [(None, self)] []) as (paths & Hrun & Hperm).
  { unfold stack_size. cbn [sum_list_with snd]. lia. }
  exists paths. split.
  - intros fuel Hfuel. by eapply all_paths_loop_fuel.
  - rewrite Hperm. unfold pending. cbn [app fmap list_fmap concat fst snd prefix default].
    rewrite app_nil_r. apply reflexive_eq.
    rewrite <- (list_fmap_id (leaves_from 0 (priceables self))) at 2.
    by apply list_fmap_ext.
Qed.

(** X8.  [all_paths] terminates on every portfolio, and it reports exactly
    the paths that lead, by indexing, to the priceables at any depth that
    are not portfolios, each of them once.  A portfolio without such a
    priceable, however deeply it nests empty portfolios, has no path. *)
Theorem all_paths_exact (name id : option string) ps :
  let self := Portfolio name id ps in
  ∃ (fuel0 : nat) paths,
    (∀ fuel, (fuel0 ≤ fuel)%nat → all_paths fuel self = Some paths) ∧
    NoDup paths ∧
    (∀ path, path ∈ paths ↔ ∃ name' data, at_path self path = Some (Instrument name' data)).
Proof.
  cbn zeta. set (self := Portfolio name id ps).
  destruct (all_paths_leaves self) as (paths & Hrun & Hperm).
  assert (paths ≡ₚ leaves self) as Hleaves
    by (subst self; by rewrite leaves_unfold).
  exists (S (size self)), paths. split_and!.
  - exact Hrun.
  - rewrite Hleaves. apply leaves_NoDup.
  - intros path. rewrite Hleaves. apply elem_of_leaves.
Qed.

(** ** Equality *)

(** X9.  A portfolio that holds no instrument at any depth compares equal
    to every portfolio: as it has no path, the loop of [__eq__] compares
    nothing.  In particular the empty portfolio equals every portfolio,
    whatever the other one holds. *)
Theorem eq_without_instruments
    (compare : PortfolioPath → PriceableImpl I → PriceableImpl I → Compared)
    (name id : option string) ps other :
  let self := Portfolio name id ps in
  (∀ path p, at_path self path = Some p → is_portfolio p = true) →
  is_portfolio other = true →
  ∃ fuel0 : nat, ∀ fuel, (fuel0 ≤ fuel)%nat →
    __eq__ compare fuel self other = Some (Return true).
Proof.
  cbn zeta. set (self := Portfolio name id ps). intros Hno Hother.
  destruct (all_paths_leaves self) as (paths & Hrun & Hperm).
  assert (paths = []) as ->.
  { destruct paths as [|path paths]; [done|]. exfalso.
    assert (path ∈ leaves self) as Hpath.
    { subst self. rewrite leaves_unfold. cbn [priceables] in Hperm.
      rewrite <- Hperm. left. }
    apply elem_of_leaves in Hpath as (name' & data & Hat).
    by apply Hno in Hat. }
  exists (S (size self)). intros fuel Hfuel.
  unfold __eq__. rewrite Hother, (Hrun fuel Hfuel). done.
Qed.

(** ** The constructor *)



(** ** Adding portfolios *)

Lemma positions_shift ps : ∀ (k idx : nat) (n : string),
  positions (k + idx) ps n = (λ j, (k + j)%nat) <$> positions idx ps n.
Proof.
  induction ps as [|q ps IH]; intros k idx n; cbn [positions]; [done|].
  rewrite fmap_app, <- IH. f_equal; [by case_decide|]. f_equal. lia.
Qed.

Lemma positions_app ps ps' (idx : nat) (n : string) :
  positions idx (ps ++ ps') n = positions idx ps n ++ positions (length ps + idx) ps' n.
Proof.
  revert idx. induction ps as [|q ps IH]; intros idx; cbn [positions app length]; [done|].
  rewrite IH, <- app_assoc. do 3 f_equal. lia.
Qed.

Lemma by_name_positions self (n : string) :
  default [] (__priceables_by_name self !! n) = positions 0 (priceables self) n.
Proof.
  unfold __priceables_by_name. rewrite index_names_lookup, lookup_empty.
  by destruct (positions 0 (priceables self) n).
Qed.

(** X11.  [self + other] raises [ValueError] unless [other] is a portfolio.
    The sum has no name, holds the priceables of [self] followed by those
    of [other], and its name index is the index of [self] followed by the
    index of [other] moved up by [len(self)]. *)
Theorem add_concatenates self other :
  match __add__ self other with
  | Return sum =>
      is_portfolio other = true ∧ name sum = None ∧
      __len__ sum = (__len__ self + __len__ other)%nat ∧
      (∀ i, priceables sum !! i =
            if decide (i < __len__ self)%nat then priceables self !! i
            else priceables other !! (i - __len__ self)%nat) ∧
      (∀ n : string,
         default [] (__priceables_by_name sum !! n)
         = default [] (__priceables_by_name self !! n)
           ++ ((λ j, (__len__ self + j)%nat) <$> default [] (__priceables_by_name other !! n)))
  | Raise e => is_portfolio other = false ∧ e = ValueError "Can only add instances of Portfolio"
  end.
Proof.
  unfold __add__. destruct (is_portfolio other); [|done].
  unfold __len__. cbn [priceables name]. split_and!; [done|done|apply length_app| |].
  - intros i. case_decide.
    + by rewrite lookup_app_l.
    + rewrite lookup_app_r by lia. done.
  - intros n. rewrite !by_name_positions. cbn [priceables].
    rewrite positions_app, <- positions_shift. done.
Qed.

End Trees.

(** ** Sets of portfolios *)

Section Sets.

Context {I : Type}.
Variable same_key : PriceableImpl I → PriceableImpl I → bool.
Implicit Types (p q self item : PriceableImpl I) (s ps stack found : list (PriceableImpl I)).

(** A set finds the object that was put into it. *)
Hypothesis same_key_refl : ∀ p, same_key p p = true.

Lemma set_contains_app s s' item :
  set_contains same_key (s ++ s') item
  = set_contains same_key s item || set_contains same_key s' item.
Proof. apply existsb_app. Qed.

Lemma set_contains_add s item q :
  set_contains same_key s q = true → set_contains same_key (set_add same_key s item) q = true.
Proof.
  intros Hq. unfold set_add. destruct (set_contains same_key s item); [done|].
  by rewrite set_contains_app, Hq.
Qed.

Lemma set_contains_add_same s item :
  set_contains same_key (set_add same_key s item) item = true.
Proof.
  unfold set_add. destruct (set_contains same_key s item) eqn:Hitem; [done|].
  rewrite set_contains_app. cbn [set_contains existsb].
  rewrite same_key_refl. by rewrite orb_true_r.
Qed.

Lemma set_contains_update items : ∀ s q,
  set_contains same_key s q = true →
  set_contains same_key (set_update same_key s items) q = true.
Proof.
  induction items as [|item items IH]; intros s q Hq; [done|].
  apply IH. by apply set_contains_add.
Qed.

Lemma set_contains_update_elem items : ∀ s q,
  q ∈ items → set_contains same_key (set_update same_key s items) q = true.
Proof.
  induction items as [|item items IH]; intros s q Hq; [by apply elem_of_nil in Hq|].
  apply elem_of_cons in Hq as [->|Hq]; [|by apply IH].
  apply (set_contains_update items (set_add same_key s item)), set_contains_add_same.
Qed.

Lemma elem_of_set_update items : ∀ s q,
  q ∈ set_update same_key s items → q ∈ s ∨ q ∈ items.
Proof.
  induction items as [|item items IH]; intros s q Hq; [by left|].
  apply IH in Hq as [Hq|Hq]; [|right; by right].
  unfold set_add in Hq. destruct (set_contains same_key s item); [by left|].
  apply elem_of_app in Hq as [Hq|Hq]; [by left|].
  apply list_elem_of_singleton in Hq as ->. right. left.
Qed.

(** The loop of [all_portfolios] skips every portfolio that the set already
    holds. *)
Lemma all_portfolios_loop_seen : ∀ (fuel : nat) stack found,
  Forall (λ q, set_contains same_key found q = true) stack →
  (length stack < fuel)%nat →
  all_portfolios_loop same_key fuel stack found = Some found.
Proof.
  induction fuel as [|fuel IH]; intros stack found Hseen Hfuel; [lia|].
  cbn [all_portfolios_loop]. destruct Hseen as [|q stack Hq Hseen]; [done|].
  rewrite Hq. apply IH; [done|]. cbn [length] in Hfuel. lia.
Qed.

Lemma all_portfolios_returns self (fuel : nat) :
  (length (portfolios self) < fuel)%nat →
  all_portfolios same_key fuel self = Some (set_update same_key [] (portfolios self)).
Proof.
  intros Hfuel. unfold all_portfolios. apply all_portfolios_loop_seen.
  - apply Forall_forall. intros q Hq. rewrite elem_of_reverse in Hq.
    by apply set_contains_update_elem.
  - by rewrite length_reverse.
Qed.

Lemma elem_of_portfolios self q :
  q ∈ portfolios self ↔ q ∈ priceables self ∧ is_portfolio q = true.
Proof. unfold portfolios. rewrite list_elem_of_filter. tauto. Qed.

(** X12.  [all_portfolios] terminates, and it never looks below the first
    level: every popped portfolio is already in the set, so the loop
    continues without reading its sub-portfolios.  Each portfolio of the
    result is one that [self] holds directly, and the set holds every
    portfolio that [self] holds directly. *)
Theorem all_portfolios_shallow self :
  ∃ (fuel0 : nat) all,
    (∀ fuel, (fuel0 ≤ fuel)%nat → all_portfolios same_key fuel self = Some all) ∧
    (∀ q, q ∈ all → q ∈ priceables self ∧ is_portfolio q = true) ∧
    (∀ q, q ∈ priceables self → is_portfolio q = true →
          set_contains same_key all q = true).
Proof.
  exists (S (length (portfolios self))), (set_update same_key [] (portfolios self)).
  split_and!.
  - intros fuel Hfuel. apply all_portfolios_returns. lia.
  - intros q [Hq|Hq]%elem_of_set_update; [by apply elem_of_nil in Hq|].
    by apply elem_of_portfolios.
  - intros q Hq Hport. by apply set_contains_update_elem, elem_of_portfolios.
Qed.

Lemma by_name_is_Some self (n : string) :
  is_Some (__priceables_by_name self !! n) ↔
  ∃ i p, priceables self !! i = Some p ∧ truthy p = true ∧ named p = Some n.
Proof.
  unfold __priceables_by_name. rewrite index_names_lookup, lookup_empty. cbn [default app].
  pose proof (elem_of_positions (priceables self) 0 ) as Hpos.
  destruct (positions 0 (priceables self) n) as [|i l] eqn:Hl; split.
  - by intros [? ?].
  - intros (i & p & Hp & Htruthy & Hnamed).
    assert (i ∈ @nil nat) as Hi; [|by apply elem_of_nil in Hi].
    rewrite <- Hl. apply Hpos. split; [lia|]. exists p. by rewrite Nat.sub_0_r.
  - intros _. assert (i ∈ positions 0 (priceables self) n) as Hi by (rewrite Hl; left).
    apply Hpos in Hi as (_ & p & Hp & Htruthy & Hnamed).
    rewrite Nat.sub_0_r in Hp. by exists i, p.
  - done.
Qed.

(** X13.  [name in portfolio] looks two levels deep and no further.  The
    test terminates; it is true when a true priceable that [self] holds
    directly bears the name, and when it is true, a true priceable of that
    name is held by [self] or by a portfolio that [self] holds directly. *)
Theorem contains_name_two_levels (name id : option string) ps (n : string) :
  let self := Portfolio name id ps in
  ∃ (fuel0 : nat) (found : bool),
    (∀ fuel, (fuel0 ≤ fuel)%nat → __contains__ same_key fuel self (ItemStr n) = Some found) ∧
    ((∃ i p, ps !! i = Some p ∧ truthy p = true ∧ named p = Some n) → found = true) ∧
    (found = true →
     ∃ path p, path ≠ [] ∧ (length path ≤ 2)%nat ∧ at_path self path = Some p ∧
               truthy p = true ∧ named p = Some n).
Proof.
  cbn zeta. set (self := Portfolio name id ps).
  set (all := set_update same_key [] (portfolios self)).
  exists (S (length (portfolios self))),
    (existsb (λ p, bool_decide (is_Some (__priceables_by_name p !! n))) (all ++ [self])).
  split_and!.
  - intros fuel Hfuel. cbn [__contains__].
    rewrite all_portfolios_returns by lia. done.
  - intros Hdirect. rewrite existsb_app. apply orb_true_iff. right.
    cbn [existsb]. rewrite orb_false_r. apply bool_decide_eq_true.
    by apply by_name_is_Some.
  - intros (q & Hq & Hn)%existsb_exists.
    apply bool_decide_eq_true, by_name_is_Some in Hn as (j & p & Hp & Htruthy & Hnamed).
    apply list_elem_of_In, elem_of_app in Hq as [Hq|Hq].
    + apply elem_of_set_update in Hq as [Hq|Hq]; [by apply elem_of_nil in Hq|].
      apply elem_of_portfolios in Hq as [Hq _].
      apply list_elem_of_lookup_1 in Hq as (i & Hi).
      exists [i; j], p. split_and!; [done|cbn; lia| |done|done].
      cbn [at_path priceables]. cbn [priceables] in Hi. rewrite Hi.
      by rewrite Hp.
    + apply list_elem_of_singleton in Hq as ->.
      exists [j], p. split_and!; [done|cbn; lia| |done|done].
      cbn [at_path]. by rewrite Hp.
Qed.

End Sets.

(** ** Hashes *)

Section Hashes.

Context {I : Type}.
Variable hash_str : option string → Z.
Variable hash_instrument : option string → I → Z.

Abbreviation hash := (__hash__ hash_str hash_instrument).

(** The exclusive or of a list of hashes. *)
Definition xor_all (hs : list Z) : Z := foldr Z.lxor 0 hs.

Lemma foldl_lxor (hs : list Z) : ∀ hash_code : Z,
  foldl (λ hash_code h, Z.lxor hash_code h) hash_code hs = Z.lxor hash_code (xor_all hs).
Proof.
  induction hs as [|h hs IH]; intros hash_code; cbn [foldl xor_all foldr].
  - by rewrite Z.lxor_0_r.
  - rewrite IH. cbn beta. unfold xor_all. by rewrite Z.lxor_assoc.
Qed.

Lemma xor_all_Permutation (hs hs' : list Z) : hs ≡ₚ hs' → xor_all hs = xor_all hs'.
Proof.
  induction 1 as [|h hs hs' _ IH|h h' hs|hs hs' hs'' _ IH _ IH']; cbn [xor_all foldr].
  - done.
  - unfold xor_all in IH. by rewrite IH.
  - rewrite <- !Z.lxor_assoc. by rewrite (Z.lxor_comm h' h).
  - congruence.
Qed.

Lemma hash_unfold (name id : option string) (ps : list (PriceableImpl I)) :
  hash (Portfolio name id ps)
  = Z.lxor (Z.lxor (hash_str name) (hash_str id))
           (xor_all ((λ priceable, builtin_hash (hash priceable)) <$> ps)).
Proof. cbn [__hash__]. apply foldl_lxor. Qed.

(** X14.  The hash of a portfolio does not depend on the order of its
    priceables, and a priceable that is held twice leaves no trace in it:
    the two occurrences cancel in the exclusive or. *)
Theorem hash_ignores_order_and_pairs (name id : option string)
    (ps ps' : list (PriceableImpl I)) (p : PriceableImpl I) :
  ps ≡ₚ ps' →
  hash (Portfolio name id ps) = hash (Portfolio name id ps') ∧
  hash (Portfolio name id (p :: p :: ps)) = hash (Portfolio name id ps').
Proof.
  intros Hperm. rewrite !hash_unfold.
  assert (xor_all ((λ priceable, builtin_hash (hash priceable)) <$> ps)
          = xor_all ((λ priceable, builtin_hash (hash priceable)) <$> ps')) as Hxor
    by (by apply xor_all_Permutation, fmap_Permutation).
  split; [by rewrite Hxor|].
  cbn [fmap list_fmap xor_all foldr]. fold (xor_all ((λ priceable, builtin_hash (hash priceable)) <$> ps)).
  rewrite <- (Z.lxor_assoc (builtin_hash _) (builtin_hash _)), Z.lxor_nilpotent, Z.lxor_0_l.
  by rewrite Hxor.
Qed.

End Hashes.

(** ** Examples: a book of nested portfolios *)

Definition swap : PriceableImpl unit := Instrument (Some "swap") tt.
Definition bond : PriceableImpl unit := Instrument (Some "bond") tt.
Definition unnamed : PriceableImpl unit := Instrument None tt.

Definition inner : PriceableImpl unit := Portfolio (Some "inner") None [swap].
Definition middle : PriceableImpl unit := Portfolio (Some "middle") None [inner; bond].
Definition outer : PriceableImpl unit := Portfolio (Some "outer") None [middle].
Definition hollow : PriceableImpl unit := Portfolio (Some "hollow") None [].
Definition book : PriceableImpl unit :=
  Portfolio (Some "book") None [outer; bond; hollow; unnamed; bond].

(** A set that knows priceables by their names. *)
Definition same_name (stored item : PriceableImpl unit) : bool :=
  bool_decide (name stored = name item).

Lemma same_name_refl p : same_name p p = true.
Proof. by apply bool_decide_eq_true. Qed.

Example book_name_index :
  __priceables_by_name book !! "bond" = Some [1; 4]%nat ∧
  __priceables_by_name book !! "hollow" = None ∧
  __priceables_by_name book !! "swap" = None.
Proof. by vm_compute. Qed.

Example book_paths :
  paths book "bond" = [[1]; [4]; [0; 0; 1]]%nat ∧
  paths book "swap" = [[0; 0; 0; 0]]%nat ∧
  all_paths 10 book = Some [[1]; [3]; [4]; [0; 0; 1]; [0; 0; 0; 0]]%nat.
Proof. by vm_compute. Qed.

(** [all_portfolios] of the book is [outer] and [hollow] alone; [middle] and
    [inner] are portfolios below it that it does not report. *)
Example all_portfolios_misses_nested :
  all_portfolios same_name 10 book = Some [outer; hollow] ∧
  at_path book [0; 0]%nat = Some middle ∧
  at_path book [0; 0; 0]%nat = Some inner.
Proof. by vm_compute. Qed.

(** ["inner" in book] is false although [book.paths("inner")] finds the
    portfolio of that name three levels down. *)
Example contains_misses_nested :
  __contains__ same_name 10 book (ItemStr "inner") = Some false ∧
  __contains__ same_name 10 book (ItemStr "middle") = Some true ∧
  paths book "inner" = [[0; 0; 0]]%nat.
Proof. by vm_compute. Qed.

Lemma all_portfolios_shallow_witness :
  (∀ p, same_name p p = true) ∧
  ∃ (fuel0 : nat) all,
    (∀ fuel, (fuel0 ≤ fuel)%nat → all_portfolios same_name fuel book = Some all) ∧
    (∀ q, q ∈ all → q ∈ priceables book ∧ is_portfolio q = true) ∧
    (∀ q, q ∈ priceables book → is_portfolio q = true →
          set_contains same_name all q = true).
Proof.
  split; [exact same_name_refl|].
  exact (all_portfolios_shallow same_name same_name_refl book).
Defined.

Lemma contains_name_two_levels_witness :
  (∀ p, same_name p p = true) ∧
  ∃ (fuel0 : nat) (found : bool),
    (∀ fuel, (fuel0 ≤ fuel)%nat →
       __contains__ same_name fuel book (ItemStr "bond") = Some found) ∧
    ((∃ i p, priceables book !! i = Some p ∧ truthy p = true ∧ named p = Some "bond") →
     found = true) ∧
    (found = true →
     ∃ path p, path ≠ [] ∧ (length path ≤ 2)%nat ∧ at_path book path = Some p ∧
               truthy p = true ∧ named p = Some "bond").
Proof.
  split; [exact same_name_refl|].
  exact (contains_name_two_levels same_name same_name_refl
           (Some "book") None [outer; bond; hollow; unnamed; bond] "bond").
Defined.

(** The empty portfolio equals the book even when every comparison of two
    priceables finds them different. *)
Lemma eq_without_instruments_witness :
  (∀ path p, at_path (Portfolio None None [hollow]) path = Some p → is_portfolio p = true) ∧
  ∃ fuel0 : nat, ∀ fuel, (fuel0 ≤ fuel)%nat →
    __eq__ (λ _ _ _, Differ) fuel (Portfolio None None [hollow]) book = Some (Return true).
Proof.
  assert (∀ path p, at_path (Portfolio None None [hollow]) path = Some p →
                    is_portfolio p = true) as Hno.
  { intros [|[|i] [|j path]] p; cbn; intros Hp; by try injection Hp as <-. }
  split; [exact Hno|].
  exact (eq_without_instruments (λ _ _ _, Differ) None None [hollow] book Hno eq_refl).
Defined.

(** A portfolio made from a dictionary takes the name of the last key. *)
Example init_from_dict_ignores_name :
  name (__init__ (λ p _, p) (Dict [("first", swap); ("second", bond)]) (Some "book"))
  = Some "second".
Proof. reflexivity. Qed.

(** Hashes for the examples: the length of a name, and one for [None]. *)
Definition hash_length (s : option string) : Z :=
  match s with
  | Some s => Z.of_nat (String.length s)
  | None => 1
  end.

Lemma hash_ignores_order_and_pairs_witness :
  [swap; inner] ≡ₚ [inner; swap] ∧
  __hash__ hash_length (λ name _, hash_length name) (Portfolio None None [swap; inner])
  = __hash__ hash_length (λ name _, hash_length name) (Portfolio None None [inner; swap]) ∧
  __hash__ hash_length (λ name _, hash_length name)
           (Portfolio None None [bond; bond; swap; inner])
  = __hash__ hash_length (λ name _, hash_length name) (Portfolio None None [inner; swap]).
Proof.
  split; [apply perm_swap|].
  apply (hash_ignores_order_and_pairs hash_length (λ name _, hash_length name)).
  apply perm_swap.
Defined.

(** A portfolio that holds a priceable twice hashes like the empty one. *)
Example hash_of_pair :
  __hash__ hash_length (λ name _, hash_length name) (Portfolio None None [swap; swap])
  = __hash__ hash_length (λ name _, hash_length name) (@Portfolio unit None None []).
Proof. by vm_compute. Qed.

End PortfolioProofs.

(** * Dictionaries and keyword arguments: specifications and proofs *)

Module BaseProofs.

Import Base.

(** ** Dictionaries filled in a loop: the last value wins *)

Section LastWins.

Context {V : Type}.
Variable rename : string → string.

(** The value of the last item of [items] whose key is renamed to [k]. *)
Definition last_value (k : string) (items : list (string * V)) : option V :=
  snd <$> last (filter (λ kv, rename kv.1 = k) items).

Lemma last_value_cons (k : string) (kv : string * V) (items : list (string * V)) :
  last_value k (kv :: items)
  = match last_value k items with
    | Some v => Some v
    | None => if decide (rename kv.1 = k) then Some kv.2 else None
    end.
Proof.
  unfold last_value. rewrite filter_cons. case_decide as Hk; [|by destruct (last _)].
  destruct (filter _ items) as [|kv' l] eqn:Hl; [done|].
  rewrite last_cons. by destruct (last (kv' :: l)) eqn:Hlast.
Qed.

Lemma foldl_insert_lookup (items : list (string * V)) : ∀ (m : gmap string V) (k : string),
  foldl (λ m kv, <[rename kv.1 := kv.2]> m) m items !! k
  = match last_value k items with
    | Some v => Some v
    | None => m !! k
    end.
Proof.
  induction items as [|kv items IH]; intros m k; [done|].
  cbn [foldl]. rewrite IH, last_value_cons.
  destruct (last_value k items); [done|]. case_decide as Hk.
  - by rewrite <- Hk, lookup_insert_eq.
  - by rewrite lookup_insert_ne.
Qed.

End LastWins.

Section DictFacts.

Context {V : Type}.
Variable camelize : string → string.
Variable underscore : string → string.
Variable _PROPERTIES : gset string.
Variable class_name : string.
Variable dir : gset string.

(** X15.  Writing an attribute of a [DictBase] and reading it back.  The
    write stores the value under the camel-case form of the name; the read
    looks the name up as it is written.  With [_PROPERTIES], reading gives
    the value back only for a name that is its own camel-case form, and
    otherwise whatever the dictionary held under the name before, [None]
    when it held nothing.  Without [_PROPERTIES], reading gives the value
    back when the name is its own camel-case form or was a key before, and
    raises [AttributeError] otherwise. *)
Theorem attribute_round_trip (self : gmap string V) (key : string) (value : V) :
  key ∉ dir →
  (_PROPERTIES ≠ ∅ → underscore key ∈ _PROPERTIES) →
  let self' := <[camelize key := value]> self in
  __setattr__ camelize underscore _PROPERTIES class_name dir self key value
  = Return (Items self') ∧
  __getattr__ camelize underscore _PROPERTIES class_name self' key
  = if decide (_PROPERTIES ≠ ∅)
    then Returned (if decide (camelize key = key) then Some value else self !! key)
    else
      if decide (camelize key = key ∨ is_Some (self !! key))
      then Returned (Some value)
      else Raised (no_attribute class_name key).
Proof.
  intros Hdir Hprop self'. split.
  - unfold __setattr__. rewrite decide_False by done.
    destruct (decide (_PROPERTIES ≠ ∅ ∧ underscore key ∉ _PROPERTIES)) as [[Hne Hout]|_];
      [|done].
    destruct Hout. by apply Hprop.
  - unfold __getattr__, __getitem__. subst self'.
    destruct (decide (_PROPERTIES ≠ ∅)) as [Hne|Hempty].
    + rewrite decide_True by auto. f_equal.
      destruct (decide (camelize key = key)) as [->|Hcamel].
      * by rewrite lookup_insert_eq.
      * by rewrite lookup_insert_ne.
    + rewrite lookup_insert_eq.
      destruct (decide (camelize key = key)) as [Hcamel|Hcamel].
      * rewrite Hcamel, lookup_insert_eq. rewrite decide_True by done.
        by rewrite decide_True by auto.
      * rewrite lookup_insert_ne by done.
        destruct (decide (is_Some (self !! key))) as [Hkey|Hkey].
        -- by rewrite decide_True by auto.
        -- rewrite decide_False; [done|]. by intros [?|?].
Qed.

(** X16.  Constructing a [DictBase] and reading its items.  With
    [_PROPERTIES], the first keyword that is not one of them, as it is
    written, raises [AttributeError].  Otherwise the dictionary is built,
    and [self[item]] gives the value of the last keyword with the same
    camel-case form as [item], else the value that the positional argument
    has under that form, else it raises [KeyError] for that form. *)
Theorem init_then_getitem (args : gmap string V) (kwargs : list (string * V)) :
  match __init__ camelize _PROPERTIES class_name args kwargs with
  | Raise e =>
      _PROPERTIES ≠ ∅ ∧
      ∃ (i : nat) invalid_arg,
        kwargs.*1 !! i = Some invalid_arg ∧ (invalid_arg ∉ _PROPERTIES) ∧
        (∀ (j : nat) k, kwargs.*1 !! j = Some k → (j < i)%nat → k ∈ _PROPERTIES) ∧
        e = no_attribute class_name invalid_arg
  | Return self =>
      (_PROPERTIES ≠ ∅ → Forall (λ k, k ∈ _PROPERTIES) kwargs.*1) ∧
      ∀ item,
        __getitem__ camelize self item
        = match last_value camelize (camelize item) kwargs with
          | Some value => Returned value
          | None =>
              match args !! camelize item with
              | Some value => Returned value
              | None => KeyError (camelize item)
              end
          end
  end.
Proof.
  unfold __init__.
  assert (∀ item,
    __getitem__ camelize (foldl (λ self kv, <[camelize kv.1 := kv.2]> self) args kwargs) item
    = match last_value camelize (camelize item) kwargs with
      | Some value => Returned value
      | None =>
          match args !! camelize item with
          | Some value => Returned value
          | None => KeyError (camelize item)
          end
      end) as Hget.
  { intros item. unfold __getitem__. rewrite foldl_insert_lookup.
    by destruct (last_value camelize (camelize item) kwargs). }
  destruct (decide (_PROPERTIES ≠ ∅)) as [Hne|Hempty]; [|by split].
  destruct (list_find (λ k, k ∉ _PROPERTIES) kwargs.*1) as [[i invalid_arg]|] eqn:Hfind.
  - apply list_find_Some in Hfind as (Hi & Hinvalid & Hbefore).
    split; [done|]. exists i, invalid_arg. split_and!; [done|done| |done].
    intros j k Hj Hlt. destruct (decide (k ∈ _PROPERTIES)) as [|Hk]; [done|].
    by destruct (Hbefore j k Hj Hlt).
  - apply list_find_None in Hfind. split; [|done]. intros _.
    eapply Forall_impl; [exact Hfind|]. intros k Hk. cbn in Hk.
    by destruct (decide (k ∈ _PROPERTIES)).
Qed.

End DictFacts.

Section FixArgsFacts.

Context {V : Type}.
Variable isupper : string → bool.
Variable underscore : string → string.
Variable _field_mappings : gmap string string.

(** [arg] is given in two spellings: it is not in upper case, and its
    snake-case form is another keyword of the call. *)
Definition conflict (kwargs : list (string * V)) (arg : string) : Prop :=
  isupper arg = false ∧ underscore arg ≠ arg ∧ underscore arg ∈ kwargs.*1.

(** The name under which the constructor receives the keyword [arg]. *)
Definition normal_name (arg : string) : string :=
  let arg := if isupper arg then arg else underscore arg in
  default arg (_field_mappings !! arg).

Lemma normalise_spec (kwargs : list (string * V)) (items : list (string * V)) :
  ∀ m : gmap string V,
  match normalise isupper underscore _field_mappings kwargs items m with
  | Return m' =>
      Forall (λ arg, ¬ conflict kwargs arg) items.*1 ∧
      m' = foldl (λ m kv, <[normal_name kv.1 := kv.2]> m) m items
  | Raise e =>
      ∃ before arg value after,
        items = before ++ (arg, value) :: after ∧
        Forall (λ arg, ¬ conflict kwargs arg) before.*1 ∧
        conflict kwargs arg ∧ e = both_specified arg (underscore arg)
  end.
Proof.
  induction items as [|[arg value] items IH]; intros m; cbn [normalise].
  - split; [constructor|done].
  - assert (normal_name arg
            = default (if isupper arg then arg else underscore arg)
                      (_field_mappings !! (if isupper arg then arg else underscore arg)))
      as Hname by done.
    destruct (isupper arg) eqn:Hupper; cbn [mbind result_bind].
    + specialize (IH (<[normal_name arg := value]> m)). rewrite Hname in IH.
      destruct (normalise _ _ _ kwargs items _) as [m'|e].
      * destruct IH as [Hall ->]. split; [|by rewrite <- Hname].
        rewrite fmap_cons. constructor; [|done]. intros [? _]. cbn in *. congruence.
      * destruct IH as (before & arg' & value' & after & -> & Hall & Hconflict & ->).
        exists ((arg, value) :: before), arg', value', after. split_and!; [done| |done|done].
        rewrite fmap_cons. constructor; [|done]. intros [? _]. cbn in *. congruence.
    + destruct (decide (underscore arg ≠ arg ∧ underscore arg ∈ kwargs.*1))
        as [[Hne Hin]|Hok]; cbn [mbind result_bind].
      * exists [], arg, value, items. split_and!; [done|constructor|done|done].
      * specialize (IH (<[normal_name arg := value]> m)). rewrite Hname in IH.
        destruct (normalise _ _ _ kwargs items _) as [m'|e].
        -- destruct IH as [Hall ->]. split; [|by rewrite <- Hname].
           rewrite fmap_cons. constructor; [|done]. intros (_ & ? & ?). by apply Hok.
        -- destruct IH as (before & arg' & value' & after & -> & Hall & Hconflict & ->).
           exists ((arg, value) :: before), arg', value', after.
           split_and!; [done| |done|done].
           rewrite fmap_cons. constructor; [|done]. intros (_ & ? & ?). by apply Hok.
Qed.

(** X17.  The constructor that [fix_args] installs.  When a keyword that is
    not in upper case is given together with its snake-case form, the call
    raises [ValueError] for the first such keyword and the wrapped
    constructor is not called.  Otherwise the wrapped constructor is called
    once, and it receives each keyword under its normal name: two keywords
    with the same normal name do not raise, and the value of the later one
    is passed. *)
Theorem wrapper_normalises_kwargs {Self Args : Type}
    (init : Self → Args → gmap string V → result Self)
    (set_name : Self → string → result Self)
    (self : Self) (args : Args) (name : option string) (kwargs : list (string * V)) :
  (∃ before arg value after,
     kwargs = before ++ (arg, value) :: after ∧
     Forall (λ arg, ¬ conflict kwargs arg) before.*1 ∧
     conflict kwargs arg ∧
     wrapper isupper underscore _field_mappings init set_name self args name kwargs
     = Raise (both_specified arg (underscore arg))) ∨
  (Forall (λ arg, ¬ conflict kwargs arg) kwargs.*1 ∧
   ∃ normalised_kwargs : gmap string V,
     (∀ k, normalised_kwargs !! k = last_value normal_name k kwargs) ∧
     wrapper isupper underscore _field_mappings init set_name self args name kwargs
     = (self ← init self args normalised_kwargs;
        match name with
        | Some name => set_name self name
        | None => Return self
        end)).
Proof.
  unfold wrapper. pose proof (normalise_spec kwargs kwargs ∅) as Hspec.
  destruct (normalise _ _ _ kwargs kwargs ∅) as [m|e].
  - right. destruct Hspec as [Hall ->]. split; [done|].
    eexists. split; [|done]. intros k. rewrite foldl_insert_lookup, lookup_empty.
    by destruct (last_value normal_name k kwargs).
  - left. destruct Hspec as (before & arg & value & after & Hkwargs & Hall & Hconflict & ->).
    by exists before, arg, value, after.
Qed.

End FixArgsFacts.

(** ** Examples *)

(** A property [foo_bar], stored under the key [fooBar]. *)
Definition camel (s : string) : string := if String.eqb s "foo_bar" then "fooBar" else s.
Definition snake (s : string) : string := if String.eqb s "fooBar" then "foo_bar" else s.

Definition foo_bar_only : gset string := {["foo_bar"]}.

Lemma attribute_round_trip_witness :
  snake "foo_bar" ∈ foo_bar_only ∧
  __setattr__ camel snake foo_bar_only "Params" ∅ (∅ : gmap string Z) "foo_bar" 7
  = Return (Items {["fooBar" := 7]}) ∧
  __getattr__ camel snake foo_bar_only "Params" ({["fooBar" := 7]} : gmap string Z) "foo_bar"
  = Returned None.
Proof.
  assert (snake "foo_bar" ∈ foo_bar_only) as Hprop by (by apply elem_of_singleton).
  split; [exact Hprop|].
  exact (attribute_round_trip camel snake foo_bar_only "Params" ∅
           (∅ : gmap string Z) "foo_bar" 7 (not_elem_of_empty _) (λ _, Hprop)).
Defined.

(** Two camel-case spellings of one name pass the check, and the later
    value is passed on; the camel-case and the snake-case spelling together
    are refused. *)
Definition snake_all (s : string) : string :=
  if String.eqb s "fooBar" then "foo_bar"
  else if String.eqb s "FooBar" then "foo_bar"
  else s.

Example two_spellings :
  normalise (λ _, false) snake_all ∅
    [("fooBar", 1); ("FooBar", 2)] [("fooBar", 1); ("FooBar", 2)] ∅
  = Return ({["foo_bar" := 2]} : gmap string Z) ∧
  normalise (λ _, false) snake_all ∅
    [("fooBar", 1); ("foo_bar", 2)] [("fooBar", 1); ("foo_bar", 2)] (∅ : gmap string Z)
  = Raise (both_specified "fooBar" "foo_bar").
Proof. split; vm_compute; reflexivity. Qed.

(** Reading an attribute whose name is a key while its camel-case form is
    not raises [KeyError] rather than [AttributeError]. *)
Example getattr_key_error :
  __getattr__ camel snake ∅ "Params" ({["foo_bar" := 7]} : gmap string Z) "foo_bar"
  = KeyError "fooBar".
Proof. vm_compute. reflexivity. Qed.

End BaseProofs.
